(** * Binary insertion sort studio: the trace generator and the playback cursor

    Shallow embedding of [generateSteps], [stepForward] and [stepBackward]
    of [src/app/page.tsx], with the properties of the generated trace; and
    of the rest of the component's logic: its state and [reset], the
    updater of the playback timer, the step the page shows, and the colour
    and offset of the bars.

    Conventions of the embedding.
    - JavaScript numbers that are used as indices ([low], [mid], [high],
      the members of [indices], [targetIdx], [searchRange]) are [Z]:
      [high] reaches [-1] when the value goes to the front.  The loop
      counters [i] and [j] of the two [for] loops, and [pos], never leave
      the naturals and are [nat]; they are injected into [Z] where a step
      records them.
    - The array is a [list]; [arr[k]] is the total lookup [arr !!! k] and
      [arr[k] = v] is [<[k:=v]> arr].  Every index the loops use is inside
      the array: a probe reads at [mid] with [0 <= mid <= i - 1]
      ([bsearch_probes], [mid_bounds]), the resolved position is at most [i]
      ([resolved_pos_le]), the shift loop works on [pos < j <= i], and the
      array keeps its length [n > i] ([shift_loop_length],
      [iteration_length], [for_loop_length]).  So the behaviour of
      JavaScript outside of the array (reading [undefined], growing the
      array) is never reached.
    - [steps.push] is modelled by returning the list of the steps pushed, in
      order; the snapshots [[...arr]] are the values of the list at that
      moment.
    - The field [description] is display text (a Japanese sentence built
      from the same numbers as the other fields) and is left out.
    - Time is not modelled: a tick of the interval is the call of its
      updater, and [Math.random] is not modelled either: [reset] takes the
      array the draws gave.
    - The source sorts [number[]] with [<].  To be able to speak about the
      relative order of equal values, the loops are written once for an
      element type [A] that carries its number in [key : A -> Z];
      [generateSteps] is the instance at [Z] with the identity as key. *)

From Stdlib Require Import ZArith List Lia String.
From stdpp Require Import base numbers list sorting.
From Equations Require Import Equations.

Local Open Scope Z_scope.

(** ** Types *)

(** [type SortState = 'search' | 'shift' | 'insert' | 'init' | 'complete'] *)
Inductive SortState : Set := Search | Shift | Insert | Init | Complete.

#[global] Instance SortState_eq_dec : EqDecision SortState.
Proof. solve_decision. Defined.

(** [interface SortingStep] (without [description]).  Optional fields are
    [option]s. *)
Record SortingStep (A : Type) : Type := mkStep {
  array : list A;
  indices : list Z;
  targetIdx : option Z;
  searchRange : option (Z * Z);
  type : SortState;
  codeLine : option Z
}.

Arguments mkStep {A} _ _ _ _ _ _.
Arguments array {A} _.
Arguments indices {A} _.
Arguments targetIdx {A} _.
Arguments searchRange {A} _.
Arguments type {A} _.
Arguments codeLine {A} _.

(** ** The algorithm *)

Section Algorithm.
Context {A : Type} `{Inhabited A} (key : A -> Z).

(** [arr[k]] for a number [k]; the loop reads it at [mid] only, which is
    never negative. *)
Definition get (arr : list A) (k : Z) : A := arr !!! Z.to_nat k.

(** The step pushed at the top of the [while] loop. *)
Definition probe_step (arr : list A) (i : nat) (low high : Z) : SortingStep A :=
  let mid := (low + high) / 2 in
  {| array := arr;
     indices := [low; mid; high];
     targetIdx := Some (Z.of_nat i);
     searchRange := Some (low, high);
     type := Search;
     codeLine := Some 11 |}.

(** The new [(low, high)] after one round of the [while] loop:
    [if (arr[mid] < val) low = mid + 1; else high = mid - 1]. *)
Definition narrow (arr : list A) (val : A) (low high : Z) : Z * Z :=
  let mid := (low + high) / 2 in
  if key (get arr mid) <? key val then (mid + 1, high) else (low, mid - 1).

(** [while (low <= high) { ... }]: the steps pushed and the final [low]. *)
Equations? bsearch (arr : list A) (val : A) (i : nat) (low high : Z)
  : list (SortingStep A) * Z by wf (Z.to_nat (high - low + 1)) lt :=
  bsearch arr val i low high with decide (low <= high) := {
    | left _ =>
        let mid := (low + high) / 2 in
        let st := probe_step arr i low high in
        if key (get arr mid) <? key val
        then let r := bsearch arr val i (mid + 1) high in (st :: r.1, r.2)
        else let r := bsearch arr val i low (mid - 1) in (st :: r.1, r.2)
    | right _ => ([], low)
  }.
Proof.
  all: assert (low <= (low + high) / 2 <= high)
    by (split; [apply Z.div_le_lower_bound | apply Z.div_le_upper_bound]; lia);
    lia.
Qed.

(** The step pushed at the top of the shift loop. *)
Definition shift_step (arr : list A) (i j : nat) : SortingStep A :=
  {| array := arr;
     indices := [Z.of_nat j; Z.of_nat j - 1];
     targetIdx := Some (Z.of_nat i);
     searchRange := None;
     type := Shift;
     codeLine := Some 6 |}.

(** [for (let j = i; j > pos; j--) { push; arr[j] = arr[j - 1]; }],
    entered with the current value of [j]. *)
Fixpoint shift_loop (pos i j : nat) (arr : list A)
  : list (SortingStep A) * list A :=
  match j with
  | O => ([], arr)
  | S j' =>
      if (pos <? j)%nat
      then let r := shift_loop pos i j' (<[j := arr !!! j']> arr) in
           (shift_step arr i j :: r.1, r.2)
      else ([], arr)
  end.

(** The step pushed before the search of round [i] begins. *)
Definition start_step (arr : list A) (i : nat) : SortingStep A :=
  {| array := arr;
     indices := [];
     targetIdx := Some (Z.of_nat i);
     searchRange := None;
     type := Search;
     codeLine := Some 3 |}.

(** The step pushed when the search has left its loop. *)
Definition resolved_step (arr : list A) (i pos : nat) : SortingStep A :=
  {| array := arr;
     indices := [Z.of_nat pos];
     targetIdx := Some (Z.of_nat i);
     searchRange := None;
     type := Search;
     codeLine := Some 16 |}.

(** The step pushed after [arr[pos] = val]; it has no [targetIdx]. *)
Definition insert_step (arr : list A) (pos : nat) : SortingStep A :=
  {| array := arr;
     indices := [Z.of_nat pos];
     targetIdx := None;
     searchRange := None;
     type := Insert;
     codeLine := Some 7 |}.

(** The body of the outer [for] loop at index [i].  [const pos = low]: the
    final [low] of the search is never negative, and [pos] is a [nat]. *)
Definition iteration (i : nat) (arr : list A) : list (SortingStep A) * list A :=
  let val := arr !!! i in
  let b := bsearch arr val i 0 (Z.of_nat i - 1) in
  let pos := Z.to_nat b.2 in
  let s := shift_loop pos i i arr in
  let arr' := <[pos := val]> s.2 in
  (start_step arr i :: b.1 ++ resolved_step arr i pos :: s.1 ++ [insert_step arr' pos],
   arr').

(** [for (let i = ...; i < n; i++)], entered with the current [i] and with
    [count] rounds left, that is [n - i]. *)
Fixpoint for_loop (count i : nat) (arr : list A) : list (SortingStep A) * list A :=
  match count with
  | O => ([], arr)
  | S c =>
      let r := iteration i arr in
      let r' := for_loop c (S i) r.2 in
      (r.1 ++ r'.1, r'.2)
  end.

(** The first step of the trace. *)
Definition init_step (arr : list A) : SortingStep A :=
  {| array := arr;
     indices := [];
     targetIdx := None;
     searchRange := None;
     type := Init;
     codeLine := Some 0 |}.

(** [Array.from({ length: n }, (_, k) => k)] *)
Definition all_indices (n : nat) : list Z := Z.of_nat <$> seq 0 n.

(** The last step of the trace. *)
Definition complete_step (arr : list A) (n : nat) : SortingStep A :=
  {| array := arr;
     indices := all_indices n;
     targetIdx := None;
     searchRange := None;
     type := Complete;
     codeLine := Some 0 |}.

(** [generateSteps], for elements compared by their key. *)
Definition generateStepsBy (initialArray : list A) : list (SortingStep A) :=
  let arr := initialArray in
  let n := length arr in
  let r := for_loop (n - 1) 1 arr in
  init_step arr :: r.1 ++ [complete_step r.2 n].

End Algorithm.

Arguments iteration {A H} key i arr : simpl never.

(** [generateSteps] of the source: numbers compared with [<]. *)
Definition generateSteps (initialArray : list Z) : list (SortingStep Z) :=
  generateStepsBy (fun x => x) initialArray.

(** ** Playback *)

(** [setCurrentStep(prev => Math.min(prev + 1, steps.length - 1))] *)
Definition stepForward {A} (steps : list (SortingStep A)) (prev : Z) : Z :=
  Z.min (prev + 1) (Z.of_nat (length steps) - 1).

(** [setCurrentStep(prev => Math.max(prev - 1, 0))] *)
Definition stepBackward (prev : Z) : Z := Z.max (prev - 1) 0.

(** ** The rest of the page's state *)

(** [const ARRAY_SIZE = 12], [const INITIAL_SPEED = 800]. *)
Definition ARRAY_SIZE : nat := 12.
Definition INITIAL_SPEED : Z := 800.

(** [const CODE_PYTHON]: the listing whose line [step.codeLine] the page
    highlights. *)
Definition CODE_PYTHON : list string :=
  [ "def binary_insertion_sort(arr):";
    "    for i in range(1, len(arr)):";
    "        val = arr[i]";
    "        pos = binary_search(arr, val, 0, i - 1)";
    "        # Shift and insert...";
    "        for j in range(i, pos, -1):";
    "            arr[j] = arr[j - 1]";
    "        arr[pos] = val";
    "";
    "def binary_search(arr, val, start, end):";
    "    while start <= end:";
    "        mid = (start + end) // 2";
    "        if arr[mid] < val:";
    "            start = mid + 1";
    "        else:";
    "            end = mid - 1";
    "    return start" ]%string.

(** The five [useState] cells of the component; the cell [array] of the
    source is [inputArray] here, as [array] names the field of a step. *)
Record Studio : Type := mkStudio {
  inputArray : list Z;
  steps : list (SortingStep Z);
  currentStep : Z;
  isPlaying : bool;
  speed : Z
}.

(** The state of the first render: [useState([])], [useState(0)],
    [useState(false)], [useState(INITIAL_SPEED)]. *)
Definition initial_studio : Studio :=
  {| inputArray := []; steps := []; currentStep := 0; isPlaying := false;
     speed := INITIAL_SPEED |}.

(** [reset], for the array [newArray] that the random draws gave. *)
Definition reset (newArray : list Z) (st : Studio) : Studio :=
  {| inputArray := newArray;
     steps := generateSteps newArray;
     currentStep := 0;
     isPlaying := false;
     speed := speed st |}.

(** The function the interval passes to [setCurrentStep], with the
    [setIsPlaying(false)] it makes on the way:
    [if (prev >= steps.length - 1) { setIsPlaying(false); return prev; }
     return prev + 1]. *)
Definition tick {A} (steps : list (SortingStep A)) (prev : Z) (playing : bool)
  : Z * bool :=
  if Z.of_nat (length steps) - 1 <=? prev then (prev, false) else (prev + 1, playing).

(** The condition under which the effect starts the interval:
    [isPlaying && currentStep < steps.length - 1]. *)
Definition timer_armed (st : Studio) : bool :=
  isPlaying st && (currentStep st <? Z.of_nat (length (steps st)) - 1).

(** The delay of the interval: [1001 - speed]. *)
Definition interval (st : Studio) : Z := 1001 - speed st.

(** What the user and the timer do to the state. *)
Inductive Action : Type :=
| Reset (newArray : list Z)
| Forward
| Backward
| TogglePlay
| SetSpeed (v : Z)
| Tick.

Definition act (a : Action) (st : Studio) : Studio :=
  match a with
  | Reset newArray => reset newArray st
  | Forward =>
      {| inputArray := inputArray st; steps := steps st;
         currentStep := stepForward (steps st) (currentStep st);
         isPlaying := isPlaying st; speed := speed st |}
  | Backward =>
      {| inputArray := inputArray st; steps := steps st;
         currentStep := stepBackward (currentStep st);
         isPlaying := isPlaying st; speed := speed st |}
  | TogglePlay =>
      {| inputArray := inputArray st; steps := steps st;
         currentStep := currentStep st;
         isPlaying := negb (isPlaying st); speed := speed st |}
  | SetSpeed v =>
      {| inputArray := inputArray st; steps := steps st;
         currentStep := currentStep st;
         isPlaying := isPlaying st; speed := v |}
  | Tick =>
      let r := tick (steps st) (currentStep st) (isPlaying st) in
      {| inputArray := inputArray st; steps := steps st;
         currentStep := r.1; isPlaying := r.2; speed := speed st |}
  end.

(** The actions of a list, first to last. *)
Definition run (actions : list Action) (st : Studio) : Studio :=
  fold_left (fun s a => act a s) actions st.

(** The step the page falls back to:
    [{ array: [], indices: [], type: 'init', description: '' }]. *)
Definition placeholder : SortingStep Z :=
  {| array := []; indices := []; targetIdx := None; searchRange := None;
     type := Init; codeLine := None |}.

(** [const step = steps[currentStep] || placeholder]: an index below zero
    or past the end reads [undefined]. *)
Definition shown_step (st : Studio) : SortingStep Z :=
  if currentStep st <? 0 then placeholder
  else default placeholder (steps st !! Z.to_nat (currentStep st)).

(** ** The bars *)

(** The class strings of the bars, as [page.tsx] writes them. *)
Definition class_idle : string := "bg-slate-100".
Definition class_in_range : string := "bg-slate-200".
Definition class_bound : string := "bg-teal-100 border border-teal-200".
Definition class_mid : string := "bg-rose-400 shadow-[0_0_20px_rgba(244,63,94,0.4)]".
Definition class_target : string := "bg-teal-600 shadow-[0_0_25px_rgba(20,184,166,0.5)]".
Definition class_shift : string := "bg-teal-300 shadow-[0_0_15px_rgba(94,234,212,0.2)]".
Definition class_insert : string := "bg-teal-600 shadow-[0_0_25px_rgba(20,184,166,0.6)]".
Definition class_complete : string := "bg-teal-600 shadow-[0_0_20px_rgba(20,184,166,0.3)]".

(** [xs.includes(x)], and [o === x] for a value [o] that may be
    [undefined]. *)
Definition includes (xs : list Z) (x : Z) : bool := existsb (Z.eqb x) xs.

Definition is_number (o : option Z) (x : Z) : bool :=
  match o with Some y => y =? x | None => false end.

(** [colorClass] and [yOffset] of the bar at [idx], as the callback of
    [step.array.map] computes them. *)
Definition bar (step : SortingStep Z) (idx : nat) : string * Z :=
  let x := Z.of_nat idx in
  let isSearching := bool_decide (type step = Search) && includes (indices step) x in
  let isMid := bool_decide (type step = Search) && is_number (indices step !! 1%nat) x in
  let inRange :=
    match searchRange step with
    | Some (lo, hi) => (lo <=? x) && (x <=? hi)
    | None => false
    end in
  let isTarget := is_number (targetIdx step) x in
  let colorClass := class_idle in
  let yOffset := 0 in
  let colorClass :=
    if inRange then
      let colorClass := class_in_range in
      let colorClass := if isSearching then class_bound else colorClass in
      if isMid then class_mid else colorClass
    else colorClass in
  let colorClass := if isTarget then class_target else colorClass in
  let yOffset := if isTarget then -80 else yOffset in
  let colorClass :=
    if bool_decide (type step = Shift) && includes (indices step) x
    then class_shift else colorClass in
  let colorClass :=
    if bool_decide (type step = Insert) && is_number (indices step !! 0%nat) x
    then class_insert else colorClass in
  let colorClass :=
    if bool_decide (type step = Complete) then class_complete else colorClass in
  (colorClass, yOffset).

(** * Vocabulary of the properties *)

(** ** Neighbours in a list *)

(** [Adj P l]: every two neighbours [x], [y] of [l] (in this order) satisfy
    [P x y]. *)
Fixpoint Adj {S : Type} (P : S -> S -> Prop) (l : list S) : Prop :=
  match l with
  | x :: t => match t with y :: _ => P x y | [] => True end /\ Adj P t
  | [] => True
  end.

(** ** Keys, rounds and steps *)

(** The order the sort establishes: non-decreasing keys. *)
Definition le_key {A : Type} (key : A -> Z) (a b : A) : Prop := key a <= key b.

(** The step belongs to round [i]: its [targetIdx] is [i]. *)
Definition for_target {A : Type} (i : nat) (s : SortingStep A) : Prop :=
  targetIdx s = Some (Z.of_nat i).

#[global] Instance for_target_dec {A : Type} (i : nat) (s : SortingStep A) :
  Decision (for_target i s).
Proof. unfold for_target. apply _. Defined.

(** The shift steps of round [i], and its resolved search step: the one
    search step of the round that has a single index and no range. *)
Definition is_shift_of {A : Type} (i : nat) (s : SortingStep A) : Prop :=
  type s = Shift /\ for_target i s.

Definition is_resolved_of {A : Type} (i : nat) (s : SortingStep A) : Prop :=
  (type s = Search /\ searchRange s = None /\ length (indices s) = 1%nat) /\
  for_target i s.

#[global] Instance is_shift_of_dec {A : Type} (i : nat) (s : SortingStep A) :
  Decision (is_shift_of i s).
Proof. unfold is_shift_of. apply _. Defined.

#[global] Instance is_resolved_of_dec {A : Type} (i : nat) (s : SortingStep A) :
  Decision (is_resolved_of i s).
Proof. unfold is_resolved_of. apply _. Defined.

(** The step with the tags of its snapshot erased. *)
Definition erase {A : Type} (key : A -> Z) (s : SortingStep A) : SortingStep Z :=
  {| array := key <$> array s;
     indices := indices s;
     targetIdx := targetIdx s;
     searchRange := searchRange s;
     type := type s;
     codeLine := codeLine s |}.

Section Vocabulary.
Context {A : Type} `{Inhabited A} (key : A -> Z).
Implicit Types (l arr : list A) (i j k : nat) (t : list (SortingStep A)).

(** What follows a probe: the probe of the narrowed range while it is not
    empty, the resolved position [low] of the narrowed range once it is. *)
Definition probe_next (s s' : SortingStep A) : Prop :=
  forall lo hi, searchRange s = Some (lo, hi) ->
    exists i : nat,
      targetIdx s = Some (Z.of_nat i) /\
      let n := narrow key (array s) (array s !!! i) lo hi in
      if decide (n.1 <= n.2)
      then s' = probe_step (array s) i n.1 n.2
      else 0 <= n.1 /\ s' = resolved_step (array s) i (Z.to_nat n.1).

(** The list does not end with a probe. *)
Definition quiet_end t : Prop :=
  forall x, last t = Some x -> searchRange x = None.

(** The array after the first [k] assignments [arr[j] = arr[j - 1]],
    [arr[j - 1] = arr[j - 2]], ... of a shift loop entered at [j]. *)
Fixpoint shifted arr j k : list A :=
  match k with
  | O => arr
  | S k' => shifted (<[j := arr !!! (j - 1)%nat]> arr) (j - 1) k'
  end.

(** The position the search resolves to, for the round at [i]. *)
Definition resolved_pos arr i : nat :=
  Z.to_nat (bsearch key arr (arr !!! i) i 0 (Z.of_nat i - 1)).2.

(** The array when round [i] begins. *)
Definition array_before (l : list A) (i : nat) : list A :=
  (for_loop key (i - 1) 1 l).2.

(** The array the loop ends with. *)
Definition final_array (l : list A) : list A :=
  (for_loop key (length l - 1) 1 l).2.

(** The elements of [l] with key [x], in the order of [l]. *)
Definition with_key (x : Z) (l : list A) : list A :=
  filter (fun a => key a = x) l.

(** What holds of the array when the outer loop is about to run round [i]
    on the input [l]: the prefix of length [i] holds the first [i] inputs,
    sorted by key, elements of one key in the reverse of their input order;
    the rest of the array is untouched. *)
Record round_inv (l : list A) (i : nat) (arr : list A) : Prop := {
  inv_length : length arr = length l;
  inv_perm : arr ≡ₚ l;
  inv_sorted : StronglySorted (le_key key) (take i arr);
  inv_rest : drop i arr = drop i l;
  inv_order : forall x, with_key x (take i arr) = reverse (with_key x (take i l))
}.

(** The five kinds of steps that round [i] pushes. *)
Inductive round_step (i : nat) : SortingStep A -> Prop :=
| rs_start arr : round_step i (start_step arr i)
| rs_probe arr lo hi :
    0 <= lo -> lo <= hi -> hi <= Z.of_nat i - 1 ->
    round_step i (probe_step arr i lo hi)
| rs_resolved arr pos : (pos <= i)%nat -> round_step i (resolved_step arr i pos)
| rs_shift arr j : round_step i (shift_step arr i j)
| rs_insert arr pos : round_step i (insert_step arr pos).

(** The steps of round [i] that carry [targetIdx]: all but the closing
    insert step. *)
Definition round_block arr i : list (SortingStep A) :=
  start_step arr i ::
  (bsearch key arr (arr !!! i) i 0 (Z.of_nat i - 1)).1 ++
  resolved_step arr i (resolved_pos arr i) ::
  (shift_loop (resolved_pos arr i) i i arr).1.

End Vocabulary.

(** A step fits the input [l]: its snapshot has the length of [l] and holds
    values of [l] only, and its indices, target index and search range are
    positions of the array. *)
Definition step_fits {A : Type} (l : list A) (s : SortingStep A) : Prop :=
  length (array s) = length l /\
  array s ⊆ l /\
  Forall (fun x => 0 <= x < Z.of_nat (length l)) (indices s) /\
  (forall t, targetIdx s = Some t -> 0 <= t < Z.of_nat (length l)) /\
  (forall lo hi, searchRange s = Some (lo, hi) ->
                 0 <= lo /\ lo <= hi /\ hi < Z.of_nat (length l)).

(** The snapshot after a step that is no shift step is the snapshot of the
    step. *)
Definition keeps_array {A : Type} (s s' : SortingStep A) : Prop :=
  type s <> Shift -> array s' = array s.

(** The step is a probe of round [i]: it has a [searchRange] and its
    [targetIdx] is [i]. *)
Definition is_probe_of {A : Type} (i : nat) (s : SortingStep A) : Prop :=
  is_Some (searchRange s) /\ for_target i s.

#[global] Instance is_probe_of_dec {A : Type} (i : nat) (s : SortingStep A) :
  Decision (is_probe_of i s).
Proof. unfold is_probe_of. apply _. Defined.

(** A trace is loaded and the cursor is on one of its steps. *)
Definition loaded (st : Studio) : Prop :=
  steps st = generateSteps (inputArray st) /\
  0 <= currentStep st < Z.of_nat (length (steps st)).

(** Induction on the two bounds of a loop by the principle [lem], such as
    [while_ind] below for the binary search. *)
Ltac loop_induction lem low high IH :=
  pattern low, high; revert low high; apply lem; intros low high IH.

(** * Lemmas *)

(** ** Adjacent steps of a trace *)

Section Adj.
Context {S : Type} (P : S -> S -> Prop).

Lemma Adj_app (l1 l2 : list S) :
  Adj P l1 -> Adj P l2 ->
  (forall x y, last l1 = Some x -> head l2 = Some y -> P x y) ->
  Adj P (l1 ++ l2).
Proof.
  induction l1 as [|x [|x' l1] IH]; simpl; intros H1 H2 HJ; [done| |].
  - split; [|done]. destruct l2; [done|]. by apply HJ.
  - destruct H1 as [? H1]. split; [done|]. apply IH; done.
Qed.

Lemma Adj_split (l pre post : list S) (x y : S) :
  Adj P l -> l = pre ++ x :: y :: post -> P x y.
Proof.
  intros HA ->. induction pre as [|z pre IH]; simpl in *; [tauto|].
  apply IH, HA.
Qed.

(** Neighbours for which [P] holds whatever follows. *)
Lemma Adj_Forall (Q : S -> Prop) (l : list S) :
  (forall x y, Q x -> P x y) -> Forall Q l -> Adj P l.
Proof.
  intros HQ. induction 1 as [|x l Hx Hl IH]; simpl; [done|].
  split; [|done]. destruct l; [done|]. by apply HQ.
Qed.
End Adj.

(** ** The binary search *)

Section BinarySearch.
Context {A : Type} `{Inhabited A} (key : A -> Z).
Implicit Types (arr : list A) (val : A) (i : nat) (low high : Z).

Lemma mid_bounds low high :
  low <= high -> low <= (low + high) / 2 <= high.
Proof.
  intros. split; [apply Z.div_le_lower_bound | apply Z.div_le_upper_bound]; lia.
Qed.

Lemma narrow_bounds arr val low high :
  low <= high ->
  low <= (narrow key arr val low high).1 /\
  (narrow key arr val low high).2 <= high /\
  (narrow key arr val low high).1 <= (narrow key arr val low high).2 + 1 /\
  (narrow key arr val low high).2 - (narrow key arr val low high).1 < high - low.
Proof.
  intros Hle. pose proof (mid_bounds low high Hle).
  unfold narrow. destruct (_ <? _); simpl; lia.
Qed.

Lemma bsearch_step arr val i low high :
  bsearch key arr val i low high =
  if decide (low <= high) then
    let n := narrow key arr val low high in
    let r := bsearch key arr val i n.1 n.2 in
    (probe_step arr i low high :: r.1, r.2)
  else ([], low).
Proof.
  rewrite bsearch_equation_1. destruct (decide (low <= high)); simpl; [|done].
  unfold narrow. destruct (_ <? _); reflexivity.
Qed.

(** Induction along the rounds of the [while] loop. *)
Lemma while_ind arr val (P : Z -> Z -> Prop) :
  (forall low high,
      (low <= high ->
       P (narrow key arr val low high).1 (narrow key arr val low high).2) ->
      P low high) ->
  forall low high, P low high.
Proof.
  intros Hstep low high.
  remember (Z.to_nat (high - low + 1)) as m eqn:Hm.
  revert low high Hm. induction m as [m IH] using lt_wf_ind. intros low high ->.
  apply Hstep. intros Hle.
  destruct (narrow_bounds arr val low high Hle) as (? & ? & ? & ?).
  eapply IH; [|reflexivity]. lia.
Qed.

(** The loop leaves with [low] between its first value and [high + 1]. *)
Lemma bsearch_bounds arr val i low high :
  low <= high + 1 ->
  low <= (bsearch key arr val i low high).2 <= high + 1.
Proof.
  loop_induction (while_ind arr val) low high IH. intros Hle.
  rewrite bsearch_step. destruct (decide (low <= high)) as [Hlh|Hlh]; simpl; [|lia].
  destruct (narrow_bounds arr val low high Hlh) as (? & ? & ? & ?).
  specialize (IH Hlh). lia.
Qed.

(** Every step pushed by the loop is a probe of a non-empty range inside
    the first range. *)
Lemma bsearch_probes arr val i low high :
  Forall (fun s => exists lo hi,
              s = probe_step arr i lo hi /\ low <= lo /\ lo <= hi /\ hi <= high)
         (bsearch key arr val i low high).1.
Proof.
  loop_induction (while_ind arr val) low high IH.
  rewrite bsearch_step. destruct (decide (low <= high)) as [Hlh|Hlh]; simpl; [|done].
  destruct (narrow_bounds arr val low high Hlh) as (? & ? & ? & ?).
  constructor.
  - exists low, high. repeat split; lia.
  - eapply Forall_impl; [apply IH, Hlh|]. simpl.
    intros s (lo & hi & -> & ? & ? & ?). exists lo, hi. repeat split; lia.
Qed.

Lemma bsearch_chain arr i low high :
  0 <= low ->
  Adj (probe_next key)
    ((bsearch key arr (arr !!! i) i low high).1 ++
     [resolved_step arr i (Z.to_nat (bsearch key arr (arr !!! i) i low high).2)]).
Proof.
  loop_induction (while_ind arr (arr !!! i)) low high IH. intros H0.
  rewrite bsearch_step. destruct (decide (low <= high)) as [Hlh|Hlh]; simpl; [|done].
  destruct (narrow_bounds arr (arr !!! i) low high Hlh) as (? & ? & ? & ?).
  split; [|apply IH; [done|lia]].
  set (n := narrow key arr (arr !!! i) low high) in *.
  rewrite (bsearch_step _ _ _ n.1 n.2).
  destruct (decide (n.1 <= n.2)) as [Hn|Hn]; simpl;
    intros lo hi [= <- <-]; exists i; (split; [done|]); simpl; fold n;
    destruct (decide (n.1 <= n.2)); try done.
  split; [lia|done].
Qed.

(** On a prefix [arr[0..i-1]] that is sorted by key, the loop leaves with
    the least position whose key is not below the key of [val]. *)
Lemma bsearch_lower_bound arr val i low high :
  0 <= low -> high < Z.of_nat i -> low <= high + 1 ->
  (forall j k : nat, (j <= k < i)%nat -> key (arr !!! j) <= key (arr !!! k)) ->
  (forall k : nat, Z.of_nat k < low -> key (arr !!! k) < key val) ->
  (forall k : nat, high < Z.of_nat k < Z.of_nat i -> key val <= key (arr !!! k)) ->
  (forall k : nat, Z.of_nat k < (bsearch key arr val i low high).2 ->
              key (arr !!! k) < key val) /\
  (forall k : nat, (bsearch key arr val i low high).2 <= Z.of_nat k < Z.of_nat i ->
              key val <= key (arr !!! k)).
Proof.
  intros H0 Hhi Hle Hsorted. revert H0 Hhi Hle.
  loop_induction (while_ind arr val) low high IH. intros H0 Hhi Hle Hlt Hge.
  rewrite bsearch_step. destruct (decide (low <= high)) as [Hlh|Hlh]; simpl.
  - specialize (IH Hlh). pose proof (mid_bounds low high Hlh) as Hmid.
    revert IH. unfold narrow, get.
    destruct (Z.ltb_spec (key (arr !!! Z.to_nat ((low + high) / 2))) (key val))
      as [Hc|Hc]; simpl; intros IH; apply IH; try lia; try done.
    + intros k Hk. specialize (Hsorted k (Z.to_nat ((low + high) / 2))). lia.
    + intros k Hk. destruct (decide (high < Z.of_nat k)); [apply Hge; lia|].
      specialize (Hsorted (Z.to_nat ((low + high) / 2)) k). lia.
  - split; [done|]. intros k Hk. apply Hge. lia.
Qed.

End BinarySearch.

(** ** The shift loop *)

Section ShiftLoop.
Context {A : Type} `{Inhabited A}.
Implicit Types (arr : list A) (pos i j k : nat).

Lemma shift_loop_stop pos i j arr :
  (j <= pos)%nat -> shift_loop pos i j arr = ([], arr).
Proof.
  intros Hle. destruct j as [|j]; simpl; [done|].
  destruct (Nat.ltb_spec pos (S j)); [lia|done].
Qed.

(** The steps of the loop, one for each [j] from the entry value down to
    [pos + 1], each with the array as the earlier rounds left it. *)
Lemma shift_loop_steps pos i j arr :
  (shift_loop pos i j arr).1 =
  (fun k => shift_step (shifted arr j k) i (j - k)) <$> seq 0 (j - pos).
Proof.
  revert arr. induction j as [|j IH]; intros arr; [done|].
  simpl shift_loop. destruct (Nat.ltb_spec pos (S j)) as [Hlt|Hge]; simpl.
  - replace (S j - pos)%nat with (S (j - pos)) by lia.
    rewrite <- cons_seq, fmap_cons, <- fmap_S_seq, <- list_fmap_compose.
    rewrite IH. f_equal. apply list_fmap_ext. intros _ k _. simpl.
    by rewrite Nat.sub_0_r.
  - by replace (S j - pos)%nat with 0%nat by lia.
Qed.

Lemma shift_loop_length pos i j arr :
  length (shift_loop pos i j arr).2 = length arr.
Proof.
  revert arr. induction j as [|j IH]; intros arr; [done|].
  simpl. destruct (pos <? S j)%nat; simpl; [|done].
  by rewrite IH, length_insert.
Qed.

(** The loop moves the block [l2] between [pos] and [j] one place to the
    right; the slot at [pos] keeps its value. *)
Lemma shift_loop_array (l1 l2 l3 : list A) (x : A) i :
  (shift_loop (length l1) i (length l1 + length l2) (l1 ++ l2 ++ x :: l3)).2 =
  l1 ++ hd x l2 :: l2 ++ l3.
Proof.
  revert x l3. induction l2 as [|y l2 IH] using rev_ind; intros x l3.
  - simpl. rewrite Nat.add_0_r, shift_loop_stop by lia. done.
  - rewrite length_app. simpl length.
    replace (length l1 + (length l2 + 1))%nat with (S (length l1 + length l2)) by lia.
    simpl shift_loop.
    destruct (Nat.ltb_spec (length l1) (S (length l1 + length l2))); [|lia].
    simpl.
    assert (Hread : (l1 ++ (l2 ++ [y]) ++ x :: l3) !!! (length l1 + length l2)%nat = y).
    { rewrite <- (assoc_L (++) l2), (assoc_L (++) l1 l2).
      apply list_lookup_total_middle. by rewrite length_app. }
    rewrite Hread.
    assert (Hwrite : <[S (length l1 + length l2) := y]> (l1 ++ (l2 ++ [y]) ++ x :: l3)
                     = l1 ++ l2 ++ y :: y :: l3).
    { rewrite <- (assoc_L (++) l2), (assoc_L (++) l1 l2). simpl.
      rewrite insert_app_r_alt by (rewrite length_app; lia).
      rewrite length_app.
      replace (S (length l1 + length l2) - (length l1 + length l2))%nat with 1%nat by lia.
      by rewrite <- (assoc_L (++)). }
    rewrite Hwrite, IH. rewrite <- (assoc_L (++) l2). simpl.
    by destruct l2.
Qed.

End ShiftLoop.

(** ** One round of the outer loop *)

Section Iteration.
Context {A : Type} `{Inhabited A} (key : A -> Z).
Implicit Types (arr : list A) (i : nat).

Lemma StronglySorted_lookup_total (l : list A) (j k : nat) :
  StronglySorted (le_key key) l -> (j <= k < length l)%nat ->
  key (l !!! j) <= key (l !!! k).
Proof.
  intros Hs. revert j k. induction Hs as [|x l Hs IH Hx]; intros j k Hjk; simpl in *; [lia|].
  destruct j as [|j], k as [|k]; simpl; try lia.
  - apply (Forall_lookup_total_1 _ _ k Hx). lia.
  - apply IH. lia.
Qed.

Lemma arr_split arr (pos i : nat) :
  (pos <= i < length arr)%nat ->
  arr = take pos arr ++ take (i - pos) (drop pos arr) ++ arr !!! i :: drop (S i) arr.
Proof.
  intros Hi. rewrite (assoc_L (++)), take_take_drop.
  replace (pos + (i - pos))%nat with i by lia.
  symmetry. apply take_drop_middle, list_lookup_lookup_total_lt. lia.
Qed.

Lemma resolved_pos_le arr i : (resolved_pos key arr i <= i)%nat.
Proof.
  unfold resolved_pos.
  pose proof (bsearch_bounds key arr (arr !!! i) i 0 (Z.of_nat i - 1)). lia.
Qed.

(** The round at [i] takes [arr[i]] out and puts it back at the resolved
    position: before the first element of the sorted prefix whose key is not
    below its own. *)
Lemma iteration_array arr i :
  (i < length arr)%nat ->
  StronglySorted (le_key key) (take i arr) ->
  exists l1 l2 l3 : list A,
    arr = l1 ++ l2 ++ arr !!! i :: l3 /\
    length l1 = resolved_pos key arr i /\
    length (l1 ++ l2) = i /\
    (iteration key i arr).2 = l1 ++ arr !!! i :: l2 ++ l3 /\
    Forall (fun a => key a < key (arr !!! i)) l1 /\
    Forall (fun a => key (arr !!! i) <= key a) l2.
Proof.
  intros Hi Hs. pose proof (resolved_pos_le arr i) as Hpos.
  assert (Hidx : forall j k : nat, (j <= k < i)%nat -> key (arr !!! j) <= key (arr !!! k)).
  { intros j k Hjk.
    rewrite <- (lookup_total_take_lt arr i j), <- (lookup_total_take_lt arr i k) by lia.
    apply StronglySorted_lookup_total; [done|]. rewrite length_take. lia. }
  destruct (bsearch_lower_bound key arr (arr !!! i) i 0 (Z.of_nat i - 1))
    as [Hlt Hge]; [lia|lia|lia|done|intros; lia|intros; lia|].
  pose proof (bsearch_bounds key arr (arr !!! i) i 0 (Z.of_nat i - 1)) as Hb.
  fold (resolved_pos key arr i) in *.
  set (pos := resolved_pos key arr i) in *.
  set (l1 := take pos arr). set (l2 := take (i - pos) (drop pos arr)).
  set (l3 := drop (S i) arr).
  assert (Hl1 : length l1 = pos) by (unfold l1; rewrite length_take; lia).
  assert (Hl2 : length l2 = (i - pos)%nat)
    by (unfold l2; rewrite length_take, length_drop; lia).
  assert (Harr : arr = l1 ++ l2 ++ arr !!! i :: l3) by (apply arr_split; lia).
  exists l1, l2, l3. repeat split; try done.
  - rewrite length_app. lia.
  - pose proof (shift_loop_array l1 l2 l3 (arr !!! i) i) as Hsh.
    rewrite Hl1, Hl2, <- Harr in Hsh.
    replace (pos + (i - pos))%nat with i in Hsh by lia.
    unfold iteration. simpl. fold (resolved_pos key arr i). fold pos.
    rewrite Hsh, insert_app_r_alt by lia. by rewrite Hl1, Nat.sub_diag.
  - apply Forall_lookup. intros k x [Hx Hk]%lookup_take_Some.
    apply list_lookup_total_correct in Hx as <-. apply Hlt.
    unfold pos, resolved_pos in Hk. lia.
  - apply Forall_lookup. intros k x [Hx Hk]%lookup_take_Some.
    rewrite lookup_drop in Hx.
    apply list_lookup_total_correct in Hx as <-. apply Hge.
    unfold pos, resolved_pos in *. lia.
Qed.

End Iteration.

(** ** The outer loop: the array *)

Section Filter.
Context {S : Type} (P : S -> Prop) `{!forall x, Decision (P x)}.

Lemma filter_none (l : list S) : Forall (fun x => ~ P x) l -> filter P l = [].
Proof.
  induction 1 as [|x l Hx _ IH]; [done|]. by rewrite filter_cons_False.
Qed.

Lemma filter_all (l : list S) : Forall P l -> filter P l = l.
Proof.
  induction 1 as [|x l Hx _ IH]; [done|]. by rewrite filter_cons_True, IH.
Qed.

Lemma filter_split (Q R : S -> Prop)
    `{!forall x, Decision (Q x)} `{!forall x, Decision (R x)} (l : list S) :
  (forall x, P x <-> Q x /\ R x) -> filter P l = filter Q (filter R l).
Proof.
  intros HP. rewrite list_filter_filter. by apply list_filter_iff.
Qed.
End Filter.

Section OuterLoop.
Context {A : Type} `{Inhabited A} (key : A -> Z).
Implicit Types (l arr : list A) (i : nat).

Lemma iteration_length arr i : length (iteration key i arr).2 = length arr.
Proof.
  unfold iteration. simpl. by rewrite length_insert, shift_loop_length.
Qed.

Lemma round_inv_first l : round_inv key l 1 l.
Proof.
  split; try done.
  - destruct l as [|a l]; simpl; [constructor|]. rewrite take_0.
    repeat constructor.
  - intros x. destruct l as [|a l]; simpl; [done|]. rewrite take_0.
    unfold with_key. rewrite filter_singleton; [|exact []].
    by destruct (decide (key a = x)).
Qed.

Lemma round_inv_step l i arr :
  (i < length l)%nat ->
  round_inv key l i arr -> round_inv key l (S i) (iteration key i arr).2.
Proof.
  intros Hi [Hlen Hperm Hsorted Hrest Horder].
  destruct (iteration_array key arr i) as (l1 & l2 & l3 & Harr & Hl1 & Hl12 & Hit & Hlt & Hge);
    [lia|done|].
  set (v := arr !!! i) in *.
  assert (Hv : l !! i = Some v).
  { rewrite <- (Nat.add_0_r i), <- lookup_drop, <- Hrest, lookup_drop, Nat.add_0_r.
    apply list_lookup_lookup_total_lt. lia. }
  assert (Htake : take i arr = l1 ++ l2).
  { rewrite Harr, (assoc_L (++)). by apply take_app_length'. }
  assert (Htake' : take (S i) (l1 ++ v :: l2 ++ l3) = l1 ++ v :: l2).
  { replace (l1 ++ v :: l2 ++ l3) with ((l1 ++ v :: l2) ++ l3)
      by (by rewrite <- (assoc_L (++))).
    apply take_app_length'. rewrite length_app in *. simpl. lia. }
  assert (Hdrop : drop (S i) arr = l3).
  { rewrite Harr, (assoc_L (++)).
    replace (S i) with (length (l1 ++ l2) + 1)%nat by lia.
    by rewrite drop_app_add. }
  rewrite Htake in Hsorted, Horder.
  apply StronglySorted_app in Hsorted as (H12 & Hs1 & Hs2).
  rewrite Hit. split.
  - rewrite <- Hlen, Harr at 1. rewrite !length_app. simpl. rewrite length_app. lia.
  - rewrite <- Hperm, Harr at 1. apply Permutation_app_head.
    apply Permutation_middle.
  - rewrite Htake'. apply StronglySorted_app. split_and!; [|done|].
    + intros x1 x2 Hx1 [->|Hx2]%elem_of_cons; [|by apply H12].
      rewrite Forall_forall in Hlt. specialize (Hlt x1 Hx1). unfold le_key. lia.
    + constructor; [done|]. eapply Forall_impl; [exact Hge|]. by intros a Ha.
  - replace (l1 ++ v :: l2 ++ l3) with ((l1 ++ v :: l2) ++ l3)
      by (by rewrite <- (assoc_L (++))).
    rewrite drop_app_length' by (rewrite length_app in *; simpl; lia).
    rewrite <- Hdrop. replace (S i) with (i + 1)%nat by lia.
    by rewrite <- !drop_drop, Hrest.
  - intros x. rewrite Htake', (take_S_r l i v Hv). unfold with_key in *.
    rewrite !filter_app, reverse_app, <- Horder, filter_app, filter_cons.
    rewrite (filter_singleton _ v); [|exact []].
    destruct (decide (key v = x)) as [<-|Hne]; simpl; [|done].
    rewrite (filter_none _ l1); [done|].
    eapply Forall_impl; [exact Hlt|]. simpl. intros a Ha. lia.
Qed.

Lemma for_loop_S c i arr :
  for_loop key (S c) i arr =
  ((iteration key i arr).1 ++ (for_loop key c (S i) (iteration key i arr).2).1,
   (for_loop key c (S i) (iteration key i arr).2).2).
Proof. reflexivity. Qed.

Lemma for_loop_length count i arr :
  length (for_loop key count i arr).2 = length arr.
Proof.
  revert i arr. induction count as [|c IH]; intros i arr; [done|].
  rewrite for_loop_S. cbn [snd]. by rewrite IH, iteration_length.
Qed.

Lemma for_loop_inv l count i arr :
  (i + count <= length l)%nat ->
  round_inv key l i arr -> round_inv key l (i + count) (for_loop key count i arr).2.
Proof.
  revert i arr. induction count as [|c IH]; intros i arr Hle Hinv.
  - simpl. by rewrite Nat.add_0_r.
  - rewrite for_loop_S. cbn [snd]. replace (i + S c)%nat with (S i + c)%nat by lia.
    apply IH; [lia|]. apply round_inv_step; [lia|done].
Qed.

(** Rounds of the loop compose. *)
Lemma for_loop_add a b i arr :
  for_loop key (a + b) i arr =
  ((for_loop key a i arr).1 ++ (for_loop key b (i + a) (for_loop key a i arr).2).1,
   (for_loop key b (i + a) (for_loop key a i arr).2).2).
Proof.
  revert i arr. induction a as [|a IH]; intros i arr.
  - simpl. rewrite Nat.add_0_r. by destruct (for_loop key b i arr).
  - change (S a + b)%nat with (S (a + b)). rewrite !for_loop_S, IH. cbn [fst snd].
    replace (S i + a)%nat with (i + S a)%nat by lia.
    by rewrite (assoc_L (++)).
Qed.

Lemma array_before_inv l i :
  (1 <= i <= length l)%nat -> round_inv key l i (array_before key l i).
Proof.
  intros Hi. unfold array_before.
  replace i with (1 + (i - 1))%nat at 1 by lia.
  apply for_loop_inv; [lia|apply round_inv_first].
Qed.

Lemma array_before_S l i :
  (1 <= i)%nat -> array_before key l (S i) = (iteration key i (array_before key l i)).2.
Proof.
  intros Hi. unfold array_before.
  replace (S i - 1)%nat with ((i - 1) + 1)%nat by lia.
  rewrite for_loop_add. cbn [snd]. rewrite for_loop_S. cbn [snd for_loop].
  by replace (1 + (i - 1))%nat with i by lia.
Qed.

Lemma final_array_sorted l :
  StronglySorted (le_key key) (final_array key l) /\
  final_array key l ≡ₚ l /\
  forall x, with_key key x (final_array key l) = reverse (with_key key x l).
Proof.
  destruct l as [|a l]; [by repeat constructor|].
  destruct (array_before_inv (a :: l) (length (a :: l))) as [Hlen Hperm Hs _ Ho];
    [simpl; lia|].
  unfold array_before in *. fold (final_array key (a :: l)) in *.
  rewrite take_ge in Hs by lia. split_and!; [done..|].
  intros x. specialize (Ho x). by rewrite !take_ge in Ho by lia.
Qed.

End OuterLoop.

(** ** The outer loop: the trace *)

Section Trace.
Context {A : Type} `{Inhabited A} (key : A -> Z).
Implicit Types (l arr : list A) (i : nat).

Lemma round_block_head arr i :
  (1 <= i)%nat ->
  exists rest,
    round_block key arr i =
    start_step arr i :: probe_step arr i 0 (Z.of_nat i - 1) :: rest.
Proof.
  intros Hi. unfold round_block. rewrite bsearch_step.
  destruct (decide (0 <= Z.of_nat i - 1)) as [_|]; [|lia]. cbn zeta. cbn [fst].
  eexists. rewrite <- app_comm_cons. reflexivity.
Qed.

Lemma iteration_steps i arr :
  (iteration key i arr).1 =
  round_block key arr i ++ [insert_step (iteration key i arr).2 (resolved_pos key arr i)].
Proof.
  unfold iteration, round_block, resolved_pos. cbn [fst snd].
  rewrite <- app_comm_cons. f_equal. by rewrite <- (assoc_L (++)).
Qed.

Lemma round_block_shape arr i :
  Forall (fun s => round_step i s /\ for_target i s) (round_block key arr i).
Proof.
  unfold round_block. constructor; [by split; [constructor|]|].
  apply Forall_app. split; [|constructor].
  - eapply Forall_impl; [apply (bsearch_probes key)|]. simpl.
    intros s (lo & hi & -> & ? & ? & ?). split; [by constructor|done].
  - split; [|done]. constructor. apply resolved_pos_le.
  - rewrite shift_loop_steps. apply Forall_fmap, Forall_forall.
    intros k _. simpl. split; [constructor|done].
Qed.

Lemma iteration_shape i arr : Forall (round_step i) (iteration key i arr).1.
Proof.
  rewrite iteration_steps. apply Forall_app. split.
  - eapply Forall_impl; [apply round_block_shape|]. by intros s [? _].
  - repeat constructor.
Qed.

Lemma for_loop_shape count lo arr :
  Forall (fun s => exists i, (lo <= i < lo + count)%nat /\ round_step i s)
         (for_loop key count lo arr).1.
Proof.
  revert lo arr. induction count as [|c IH]; intros lo arr; [constructor|].
  rewrite for_loop_S. cbn [fst]. apply Forall_app. split.
  - eapply Forall_impl; [apply iteration_shape|]. simpl.
    intros s Hs. exists lo. split; [lia|done].
  - eapply Forall_impl; [apply IH|]. simpl.
    intros s (i & Hi & Hs). exists i. split; [lia|done].
Qed.

Lemma round_step_target i i' (s : SortingStep A) :
  round_step i' s -> for_target i s -> i = i'.
Proof.
  unfold for_target. destruct 1; simpl; intros [= Heq]; lia.
Qed.

Lemma filter_target_iteration i arr :
  filter (for_target i) (iteration key i arr).1 = round_block key arr i.
Proof.
  rewrite iteration_steps, filter_app, filter_all, filter_none.
  - by rewrite (right_id_L [] (++)).
  - by repeat constructor.
  - eapply Forall_impl; [apply round_block_shape|]. by intros s [_ ?].
Qed.

Lemma filter_target_for_loop count lo arr i :
  ~ (lo <= i < lo + count)%nat ->
  filter (for_target i) (for_loop key count lo arr).1 = [].
Proof.
  intros Hout. apply filter_none.
  eapply Forall_impl; [apply for_loop_shape|]. simpl.
  intros s (i' & Hi' & Hs) Ht. apply (round_step_target _ _ _ Hs) in Ht. lia.
Qed.

(** The trace around round [i]. *)
Lemma trace_round l i :
  (1 <= i < length l)%nat ->
  generateStepsBy key l =
  (init_step l :: (for_loop key (i - 1) 1 l).1) ++
  (round_block key (array_before key l i) i ++
   insert_step (array_before key l (S i)) (resolved_pos key (array_before key l i) i) ::
   (for_loop key (length l - 1 - i) (S i) (array_before key l (S i))).1 ++
   [complete_step (final_array key l) (length l)]).
Proof.
  intros Hi. unfold generateStepsBy. cbn zeta. fold (final_array key l).
  rewrite array_before_S by lia.
  unfold final_array, array_before.
  replace (length l - 1)%nat with ((i - 1) + S (length l - 1 - i))%nat at 1 by lia.
  rewrite for_loop_add. cbn [fst]. rewrite for_loop_S. cbn [fst].
  replace (1 + (i - 1))%nat with i by lia.
  rewrite iteration_steps.
  rewrite <- !(assoc_L (++)). simpl. by rewrite <- !(assoc_L (++)).
Qed.

Lemma filter_target_trace l i :
  (1 <= i < length l)%nat ->
  filter (for_target i) (generateStepsBy key l) = round_block key (array_before key l i) i.
Proof.
  intros Hi. rewrite (trace_round l i Hi).
  rewrite filter_app, filter_cons_False by done.
  rewrite filter_target_for_loop by lia.
  rewrite filter_app, filter_cons_False by done.
  rewrite filter_app, filter_target_for_loop by lia.
  rewrite filter_all.
  - rewrite filter_cons_False by done.
    rewrite filter_nil. cbn [app]. by rewrite (right_id_L [] (++)).
  - eapply Forall_impl; [apply round_block_shape|]. by intros s [_ ?].
Qed.

End Trace.

(** ** Neighbouring steps of the trace *)

Section TraceAdj.
Context {A : Type} `{Inhabited A} (key : A -> Z).
Implicit Types (l arr : list A) (i : nat) (t : list (SortingStep A)).

Lemma probe_next_quiet (s s' : SortingStep A) :
  searchRange s = None -> probe_next key s s'.
Proof. intros Hs lo hi Hr. congruence. Qed.

Lemma Adj_app_quiet t1 t2 :
  Adj (probe_next key) t1 -> Adj (probe_next key) t2 -> quiet_end t1 ->
  Adj (probe_next key) (t1 ++ t2).
Proof.
  intros H1 H2 Hq. apply Adj_app; [done..|].
  intros x y Hx _. by apply probe_next_quiet, Hq.
Qed.

Lemma quiet_end_snoc t (x : SortingStep A) :
  searchRange x = None -> quiet_end (t ++ [x]).
Proof. intros Hx y. rewrite last_snoc. by intros [= <-]. Qed.

Lemma quiet_end_app t1 t2 : quiet_end t1 -> quiet_end t2 -> quiet_end (t1 ++ t2).
Proof.
  intros H1 H2 x. rewrite last_app. destruct (last t2) eqn:E; [|by apply H1].
  intros [= <-]. by apply H2.
Qed.

Lemma Adj_quiet t :
  Forall (fun s => searchRange s = None) t -> Adj (probe_next key) t.
Proof. apply Adj_Forall. intros x y. apply probe_next_quiet. Qed.

Lemma iteration_adj i arr :
  Adj (probe_next key) (iteration key i arr).1 /\ quiet_end (iteration key i arr).1.
Proof.
  rewrite iteration_steps. split; [|by apply quiet_end_snoc].
  unfold round_block.
  change (Adj (probe_next key)
    ([start_step arr i] ++
     ((bsearch key arr (arr !!! i) i 0 (Z.of_nat i - 1)).1 ++
       resolved_step arr i (resolved_pos key arr i) ::
       (shift_loop (resolved_pos key arr i) i i arr).1) ++
     [insert_step (iteration key i arr).2 (resolved_pos key arr i)])).
  apply Adj_app_quiet; [by apply Adj_quiet; repeat constructor| |by apply (quiet_end_snoc [])].
  rewrite (cons_middle (resolved_step _ _ _)), (assoc_L (++)), <- (assoc_L (++) _ _ [_]).
  apply Adj_app_quiet.
  - apply (bsearch_chain key). lia.
  - apply Adj_quiet, Forall_app. split; [|by repeat constructor].
    rewrite shift_loop_steps. apply Forall_fmap, Forall_forall. by intros k _.
  - by apply quiet_end_snoc.
Qed.

Lemma for_loop_adj count i arr :
  Adj (probe_next key) (for_loop key count i arr).1 /\
  quiet_end (for_loop key count i arr).1.
Proof.
  revert i arr. induction count as [|c IH]; intros i arr; [by split|].
  rewrite for_loop_S. cbn [fst].
  destruct (iteration_adj i arr) as [Ha Hq].
  destruct (IH (S i) (iteration key i arr).2) as [Ha' Hq'].
  split; [by apply Adj_app_quiet|by apply quiet_end_app].
Qed.

Lemma trace_adj l : Adj (probe_next key) (generateStepsBy key l).
Proof.
  unfold generateStepsBy. cbn zeta.
  destruct (for_loop_adj (length l - 1) 1 l) as [Ha Hq].
  apply (Adj_app_quiet [_]); [done| |by apply (quiet_end_snoc [])].
  by apply Adj_app_quiet.
Qed.

(** Every step of the trace: the first, the last, or a step of a round. *)
Lemma trace_shape l (s : SortingStep A) :
  s ∈ generateStepsBy key l ->
  s = init_step l \/ s = complete_step (final_array key l) (length l) \/
  exists i, (1 <= i < length l)%nat /\ round_step i s.
Proof.
  unfold generateStepsBy. cbn zeta. fold (final_array key l).
  rewrite elem_of_cons, elem_of_app, list_elem_of_singleton.
  intros [->|[Hs| ->]]; [by left| |by right; left].
  right; right.
  pose proof (for_loop_shape key (length l - 1) 1 l) as Hshape.
  rewrite Forall_forall in Hshape. destruct (Hshape s Hs) as (i & Hi & Hr).
  exists i. split; [lia|done].
Qed.

End TraceAdj.

(** * Properties of the trace of [generateSteps] *)

Lemma generateSteps_last (l : list Z) :
  last (generateSteps l) =
  Some (complete_step (final_array (fun x => x) l) (length l)).
Proof.
  unfold generateSteps, generateStepsBy. cbn zeta. fold (final_array (fun x => x) l).
  by rewrite app_comm_cons, last_snoc.
Qed.

(** C1.  The array of the last step of the trace, the [complete] step, is
    sorted in non-decreasing order and is a permutation of the input. *)
Theorem final_step_sorted_permutation (l : list Z) :
  exists s : SortingStep Z,
    last (generateSteps l) = Some s /\
    type s = Complete /\
    Sorted Z.le (array s) /\
    StronglySorted Z.le (array s) /\
    array s ≡ₚ l.
Proof.
  eexists. split; [apply generateSteps_last|].
  destruct (final_array_sorted (fun x => x) l) as (Hs & Hp & _).
  simpl. split_and!; [done| |exact Hs|exact Hp].
  apply StronglySorted_Sorted. exact Hs.
Qed.

(** C3.  [generateSteps] is a total function; its trace begins with the
    [init] step and ends with the [complete] step, and every step between
    the two is a [search], [shift] or [insert] step.  For the empty array and
    for an array of one element the trace is these two steps and nothing
    else. *)
Theorem trace_init_complete :
  (forall l : list Z,
      exists (mid : list (SortingStep Z)) (arr : list Z),
        generateSteps l = init_step l :: mid ++ [complete_step arr (length l)] /\
        type (init_step l) = Init /\
        type (complete_step arr (length l)) = Complete /\
        Forall (fun s => type s = Search \/ type s = Shift \/ type s = Insert) mid) /\
  generateSteps [] = [init_step []; complete_step [] 0] /\
  (forall a : Z, generateSteps [a] = [init_step [a]; complete_step [a] 1]).
Proof.
  split_and!; [|done..].
  intros l. eexists _, _. split; [reflexivity|]. split_and!; [done..|].
  eapply Forall_impl; [apply for_loop_shape|]. simpl.
  intros s (i & _ & Hs). destruct Hs; simpl; auto.
Qed.

(** A step of the trace that carries a [searchRange] is a probe of a
    non-empty range below the target index of its round. *)
Lemma trace_probe (l : list Z) (s : SortingStep Z) (lo hi : Z) :
  s ∈ generateSteps l -> searchRange s = Some (lo, hi) ->
  exists (i : nat) (arr : list Z),
    s = probe_step arr i lo hi /\ (1 <= i < length l)%nat /\
    0 <= lo /\ lo <= hi /\ hi <= Z.of_nat i - 1.
Proof.
  intros Hs Hr. apply trace_shape in Hs as [->|[->|(i & Hi & Hround)]]; [done..|].
  destruct Hround; simpl in Hr; try done.
  injection Hr as -> ->. by exists i, arr.
Qed.

(** C5.  A step of the trace that carries [searchRange = (lo, hi)] has a
    target index [i] with [0 <= lo <= hi + 1 <= i].  It is followed by
    another step: with [low'] and [high'] the bounds after the comparison of
    [arr[mid]] with [arr[i]], the next step is the probe of [(low', high')]
    while [low' <= high'], and once [low' > high'] it is the search step
    that records the resolved position, with [indices = [low']] and no
    [searchRange]. *)
Theorem search_range_invariant
    (l : list Z) (pre post : list (SortingStep Z)) (s : SortingStep Z) (lo hi : Z) :
  generateSteps l = pre ++ s :: post ->
  searchRange s = Some (lo, hi) ->
  exists (i : nat) (s' : SortingStep Z) (post' : list (SortingStep Z)),
    targetIdx s = Some (Z.of_nat i) /\
    0 <= lo /\ lo <= hi + 1 /\ hi + 1 <= Z.of_nat i /\
    post = s' :: post' /\
    let mid := (lo + hi) / 2 in
    let below := array s !!! Z.to_nat mid <? array s !!! i in
    let low' := if below then mid + 1 else lo in
    let high' := if below then hi else mid - 1 in
    if decide (low' <= high')
    then searchRange s' = Some (low', high') /\ indices s' = [low'; (low' + high') / 2; high']
    else type s' = Search /\ indices s' = [low'] /\ searchRange s' = None /\
         targetIdx s' = Some (Z.of_nat i).
Proof.
  intros Htr Hr.
  assert (Hin : s ∈ generateSteps l).
  { rewrite Htr. apply elem_of_app. right. by left. }
  destruct (trace_probe l s lo hi Hin Hr) as (i & arr & -> & Hi & H0 & Hle & Hhi).
  destruct post as [|s' post'].
  { pose proof (generateSteps_last l) as Hlast.
    rewrite Htr, last_snoc in Hlast. by injection Hlast. }
  pose proof (trace_adj (fun x => x) l) as Hadj.
  pose proof (Adj_split _ _ pre post' _ s' Hadj Htr lo hi Hr) as (i' & Hi' & Hnext).
  simpl in Hi'. injection Hi' as Hi'. apply Nat2Z.inj in Hi' as <-.
  exists i, s', post'. split_and!; [done|lia..|done|].
  revert Hnext. unfold narrow, get. simpl.
  destruct (arr !!! Z.to_nat ((lo + hi) / 2) <? arr !!! i); simpl;
    destruct (decide _); simpl; intros Hnext; try (by rewrite Hnext);
    destruct Hnext as [Hpos ->]; simpl; by rewrite Z2Nat.id.
Qed.

Lemma search_range_invariant_witness :
  exists (i : nat) (s' : SortingStep Z) (post' : list (SortingStep Z)),
    targetIdx (probe_step [5; 3] 1 0 0) = Some (Z.of_nat i) /\
    0 <= 0 /\ 0 <= 0 + 1 /\ 0 + 1 <= Z.of_nat i /\
    [resolved_step [5; 3] 1 0; shift_step [5; 3] 1 1;
     insert_step [3; 5] 0; complete_step [3; 5] 2] = s' :: post' /\
    let mid := (0 + 0) / 2 in
    let below := [5; 3] !!! Z.to_nat mid <? [5; 3] !!! i in
    let low' := if below then mid + 1 else 0 in
    let high' := if below then 0 else mid - 1 in
    if decide (low' <= high')
    then searchRange s' = Some (low', high') /\ indices s' = [low'; (low' + high') / 2; high']
    else type s' = Search /\ indices s' = [low'] /\ searchRange s' = None /\
         targetIdx s' = Some (Z.of_nat i).
Proof.
  exact (search_range_invariant [5; 3]
           [init_step [5; 3]; start_step [5; 3] 1]
           [resolved_step [5; 3] 1 0; shift_step [5; 3] 1 1;
            insert_step [3; 5] 0; complete_step [3; 5] 2]
           (probe_step [5; 3] 1 0 0) 0 0 eq_refl eq_refl).
Defined.

(** C8.  Two probes that follow one another in the trace belong to the
    same round, and the range of the second lies inside the range of the
    first and is strictly narrower: [hi' - lo' < hi - lo]. *)
Theorem probe_ranges_narrow
    (l : list Z) (pre post : list (SortingStep Z)) (s s' : SortingStep Z)
    (lo hi lo' hi' : Z) :
  generateSteps l = pre ++ s :: s' :: post ->
  searchRange s = Some (lo, hi) ->
  searchRange s' = Some (lo', hi') ->
  targetIdx s' = targetIdx s /\
  lo <= lo' /\ hi' <= hi /\
  hi' - lo' < hi - lo.
Proof.
  intros Htr Hr Hr'.
  assert (Hin : s ∈ generateSteps l).
  { rewrite Htr. apply elem_of_app. right. by left. }
  destruct (trace_probe l s lo hi Hin Hr) as (i & arr & -> & _ & _ & Hlh & _).
  pose proof (trace_adj (fun x => x) l) as Hadj.
  pose proof (Adj_split _ _ pre post _ _ Hadj Htr lo hi Hr) as (i' & Hi' & Hn).
  cbn [array probe_step] in Hn. cbn zeta in Hn.
  destruct (narrow_bounds (fun x => x) arr (arr !!! i') lo hi Hlh) as (Hb1 & Hb2 & _ & Hb3).
  destruct (decide _) as [Hd|Hd] in Hn.
  - subst s'. cbn [searchRange probe_step] in Hr'. injection Hr' as <- <-.
    split; [by rewrite Hi'|lia].
  - destruct Hn as [_ ->]. done.
Qed.

Lemma probe_ranges_narrow_witness :
  targetIdx (probe_step [3; 5; 8] 2 1 1) = targetIdx (probe_step [3; 5; 8] 2 0 1) /\
  0 <= 1 /\ 1 <= 1 /\ 1 - 1 < 1 - 0.
Proof.
  exact (probe_ranges_narrow [3; 5; 8]
           [init_step [3; 5; 8]; start_step [3; 5; 8] 1; probe_step [3; 5; 8] 1 0 0;
            resolved_step [3; 5; 8] 1 1; insert_step [3; 5; 8] 1;
            start_step [3; 5; 8] 2]
           [resolved_step [3; 5; 8] 2 2; insert_step [3; 5; 8] 2;
            complete_step [3; 5; 8] 3]
           (probe_step [3; 5; 8] 2 0 1) (probe_step [3; 5; 8] 2 1 1)
           0 1 1 1 eq_refl eq_refl eq_refl).
Defined.

Section RoundBlock.
Context {A : Type} `{Inhabited A} (key : A -> Z).
Implicit Types (l arr : list A) (i : nat).

Lemma filter_shift_trace l i :
  (1 <= i < length l)%nat ->
  filter (is_shift_of i) (generateStepsBy key l) =
  (shift_loop (resolved_pos key (array_before key l i) i) i i (array_before key l i)).1.
Proof.
  intros Hi.
  rewrite (filter_split _ (fun s => type s = Shift) (for_target i)) by done.
  rewrite (filter_target_trace key l i Hi). unfold round_block.
  rewrite filter_cons_False by (by intros [=]).
  rewrite filter_app, filter_cons_False by (by intros [=]).
  rewrite filter_none, filter_all; [done| |].
  - rewrite shift_loop_steps. apply Forall_fmap, Forall_forall. by intros k _.
  - eapply Forall_impl; [apply (bsearch_probes key)|]. simpl.
    by intros s (lo & hi & -> & _) [=].
Qed.

Lemma filter_resolved_trace l i :
  (1 <= i < length l)%nat ->
  filter (is_resolved_of i) (generateStepsBy key l) =
  [resolved_step (array_before key l i) i (resolved_pos key (array_before key l i) i)].
Proof.
  intros Hi.
  rewrite (filter_split _
    (fun s => type s = Search /\ searchRange s = None /\ length (indices s) = 1%nat)
    (for_target i)) by done.
  rewrite (filter_target_trace key l i Hi). unfold round_block.
  rewrite filter_cons_False by (by intros (_ & _ & [=])).
  rewrite filter_app, filter_cons_True by done.
  rewrite !filter_none; [done| |].
  - rewrite shift_loop_steps. apply Forall_fmap, Forall_forall. by intros k _ [[=] _].
  - eapply Forall_impl; [apply (bsearch_probes key)|]. simpl.
    by intros s (lo & hi & -> & _) (_ & [=] & _).
Qed.

(** The slot a shift step is about to overwrite still has its own value. *)
Lemma shifted_lookup arr (j k m : nat) :
  (k <= j)%nat -> (m <= j - k)%nat -> shifted arr j k !!! m = arr !!! m.
Proof.
  revert arr j. induction k as [|k IH]; intros arr j Hk Hm; [done|].
  simpl. rewrite IH by lia. apply list_lookup_total_insert_ne. lia.
Qed.

(** One more assignment of the shift loop: it writes the slot the loop
    has come down to with the value of the slot before it. *)
Lemma shifted_S arr (j k : nat) :
  shifted arr j (S k) =
  <[(j - k)%nat := shifted arr j k !!! (j - k - 1)%nat]> (shifted arr j k).
Proof.
  revert arr j. induction k as [|k IH]; intros arr j.
  - simpl. by rewrite !Nat.sub_0_r.
  - change (shifted arr j (S (S k))) with
      (shifted (<[j := arr !!! (j - 1)%nat]> arr) (j - 1) (S k)).
    rewrite IH. simpl shifted at 3 4.
    by replace (j - 1 - k)%nat with (j - S k)%nat by lia.
Qed.

End RoundBlock.

(** C4.  For the round at [i], the trace has one resolved search step [r];
    with [pos] the position it records in [indices], the trace has [i - pos]
    shift steps with [targetIdx = i].  In the order of the trace, the step
    number [k] of them is the step for [j = i - k], so [j] runs from [i] down
    to [pos + 1]: its [type] is [shift], its [indices] are [[j; j - 1]], and
    its snapshot is the array of [r] after the [k] assignments of the
    earlier shift steps only.  The assignment [arr[j] = arr[j - 1]] of the
    step itself is not in its snapshot: slot [j] of the snapshot holds the
    value it had when the round began, and the array after the assignment
    is the snapshot with slot [j] overwritten by slot [j - 1]. *)
Theorem shift_steps_of_round (l : list Z) (i : nat) :
  (1 <= i < length l)%nat ->
  exists (r : SortingStep Z) (pos : nat),
    filter (is_resolved_of i) (generateSteps l) = [r] /\
    indices r = [Z.of_nat pos] /\
    (pos <= i)%nat /\
    length (filter (is_shift_of i) (generateSteps l)) = (i - pos)%nat /\
    forall k, (k < i - pos)%nat ->
      exists s : SortingStep Z,
        filter (is_shift_of i) (generateSteps l) !! k = Some s /\
        type s = Shift /\
        targetIdx s = Some (Z.of_nat i) /\
        indices s = [Z.of_nat (i - k); Z.of_nat (i - k) - 1] /\
        searchRange s = None /\
        array s = shifted (array r) i k /\
        array s !!! (i - k)%nat = array r !!! (i - k)%nat /\
        shifted (array r) i (S k) =
          <[(i - k)%nat := array s !!! (i - k - 1)%nat]> (array s).
Proof.
  intros Hi. unfold generateSteps.
  set (arr := array_before (fun x => x) l i).
  set (pos := resolved_pos (fun x => x) arr i).
  exists (resolved_step arr i pos), pos.
  pose proof (resolved_pos_le (fun x => x) arr i) as Hpos. fold pos in Hpos.
  rewrite filter_resolved_trace, filter_shift_trace, shift_loop_steps by done.
  fold arr pos.
  split_and!; [done|done|done|by rewrite length_fmap, length_seq|].
  intros k Hk. exists (shift_step (shifted arr i k) i (i - k)).
  split_and!; try done.
  - rewrite list_lookup_fmap, lookup_seq_lt by done. done.
  - cbn [array shift_step resolved_step]. apply shifted_lookup; lia.
  - cbn [array shift_step resolved_step]. apply shifted_S.
Qed.

Lemma shift_steps_of_round_witness :
  exists (r : SortingStep Z) (pos : nat),
    filter (is_resolved_of 2) (generateSteps [2; 3; 1]) = [r] /\
    indices r = [Z.of_nat pos] /\
    (pos <= 2)%nat /\
    length (filter (is_shift_of 2) (generateSteps [2; 3; 1])) = (2 - pos)%nat /\
    forall k, (k < 2 - pos)%nat ->
      exists s : SortingStep Z,
        filter (is_shift_of 2) (generateSteps [2; 3; 1]) !! k = Some s /\
        type s = Shift /\
        targetIdx s = Some (Z.of_nat 2) /\
        indices s = [Z.of_nat (2 - k); Z.of_nat (2 - k) - 1] /\
        searchRange s = None /\
        array s = shifted (array r) 2 k /\
        array s !!! (2 - k)%nat = array r !!! (2 - k)%nat /\
        shifted (array r) 2 (S k) =
          <[(2 - k)%nat := array s !!! (2 - k - 1)%nat]> (array s).
Proof.
  apply (shift_steps_of_round [2; 3; 1] 2). simpl. lia.
Defined.

(** C6 as claimed fails: the insert step of the trace of [[2; 1]] has no
    [targetIdx]. *)
Lemma insert_step_without_target :
  insert_step [1; 2] 0 ∈ generateSteps [2; 1] /\
  type (insert_step [1; 2] 0) = Insert /\
  targetIdx (insert_step [1; 2] 0) = None.
Proof.
  split; [|done]. vm_compute. do 5 right. left.
Qed.

(** C7, as the code has it.  The first step of the trace with target index
    [i] is a search step with no indices and no [searchRange]; the step
    after it is the first probe, and that one carries the range
    [(0, i - 1)]. *)
Theorem round_starts_with_search (l : list Z) (i : nat) :
  (1 <= i < length l)%nat ->
  exists (pre post : list (SortingStep Z)) (s0 s1 : SortingStep Z),
    generateSteps l = pre ++ s0 :: s1 :: post /\
    Forall (fun s => targetIdx s <> Some (Z.of_nat i)) pre /\
    type s0 = Search /\ targetIdx s0 = Some (Z.of_nat i) /\
    indices s0 = [] /\ searchRange s0 = None /\
    type s1 = Search /\ targetIdx s1 = Some (Z.of_nat i) /\
    searchRange s1 = Some (0, Z.of_nat i - 1) /\
    indices s1 = [0; (0 + (Z.of_nat i - 1)) / 2; Z.of_nat i - 1] /\
    array s1 = array s0.
Proof.
  intros Hi. unfold generateSteps. rewrite (trace_round (fun x => x) l i Hi).
  set (arr := array_before (fun x => x) l i).
  destruct (round_block_head (fun x => x) arr i) as [rest ->]; [lia|].
  set (post := insert_step _ _ :: _).
  exists (init_step l :: (for_loop (fun x => x) (i - 1) 1 l).1), (rest ++ post),
    (start_step arr i), (probe_step arr i 0 (Z.of_nat i - 1)).
  split; [by rewrite <- !app_comm_cons|].
  split; [|by split_and!].
  constructor; [done|].
  eapply Forall_impl; [apply for_loop_shape|]. simpl.
  intros s (i' & Hi' & Hs) Ht. apply (round_step_target i _ _ Hs) in Ht. lia.
Qed.

Lemma round_starts_with_search_witness :
  exists (pre post : list (SortingStep Z)) (s0 s1 : SortingStep Z),
    generateSteps [2; 1] = pre ++ s0 :: s1 :: post /\
    Forall (fun s => targetIdx s <> Some (Z.of_nat 1)) pre /\
    type s0 = Search /\ targetIdx s0 = Some (Z.of_nat 1) /\
    indices s0 = [] /\ searchRange s0 = None /\
    type s1 = Search /\ targetIdx s1 = Some (Z.of_nat 1) /\
    searchRange s1 = Some (0, Z.of_nat 1 - 1) /\
    indices s1 = [0; (0 + (Z.of_nat 1 - 1)) / 2; Z.of_nat 1 - 1] /\
    array s1 = array s0.
Proof.
  apply (round_starts_with_search [2; 1] 1). simpl. lia.
Defined.

(** C7 as claimed fails: in the trace of [[2; 1]] the step that opens the
    round at 1 has no [searchRange], not [(0, 0)]. *)
Lemma start_step_without_range :
  generateSteps [2; 1] !! 1%nat = Some (start_step [2; 1] 1) /\
  searchRange (start_step [2; 1] 1) = None /\
  searchRange (start_step [2; 1] 1) <> Some (0, 0).
Proof. by vm_compute. Qed.

(** ** The final array, round by round *)

(** The steps of the trace that target [i] are one block of the trace, and
    the step after the block is the insert step of the round. *)
Lemma trace_round_block (l : list Z) (i : nat) :
  (1 <= i < length l)%nat ->
  exists pre post : list (SortingStep Z),
    generateSteps l =
    pre ++ filter (for_target i) (generateSteps l) ++
    insert_step (array_before (fun x => x) l (S i))
                (resolved_pos (fun x => x) (array_before (fun x => x) l i) i) :: post.
Proof.
  intros Hi. unfold generateSteps.
  rewrite (filter_target_trace (fun x => x) l i Hi).
  eexists _, _. exact (trace_round (fun x => x) l i Hi).
Qed.

(** C10.  In the trace, the steps with target index [i] form one block, and
    the step that follows the block, the insert step of the round, has a
    snapshot whose first [i + 1] entries are sorted and which is a
    permutation of the input.  Snapshots of shift steps need not be
    permutations of the input: the second shift step of the trace of
    [[2; 3; 1]] shows [[2; 3; 3]]. *)
Theorem insert_step_sorted_prefix :
  (forall (l : list Z) (i : nat),
      (1 <= i < length l)%nat ->
      exists (pre post : list (SortingStep Z)) (s : SortingStep Z),
        generateSteps l = pre ++ filter (for_target i) (generateSteps l) ++ s :: post /\
        type s = Insert /\
        Sorted Z.le (take (S i) (array s)) /\
        array s ≡ₚ l) /\
  (exists (l : list Z) (s : SortingStep Z),
      s ∈ generateSteps l /\ type s = Shift /\
      array s = [2; 3; 3] /\ l = [2; 3; 1] /\ ~ array s ≡ₚ l).
Proof.
  split.
  - intros l i Hi. destruct (trace_round_block l i Hi) as (pre & post & Htr).
    exists pre, post. eexists. split; [exact Htr|].
    destruct (array_before_inv (fun x => x) l (S i)) as [_ Hperm Hsorted _ _]; [lia|].
    simpl. split_and!; [done| |done].
    apply StronglySorted_Sorted. exact Hsorted.
  - exists [2; 3; 1], (shift_step [2; 3; 3] 2 1).
    split_and!; [|done..|].
    + vm_compute. do 9 right. left.
    + intros Hp. assert (Hin : 1 ∈ [2; 3; 3]) by (rewrite Hp; do 2 right; left).
      repeat (apply elem_of_cons in Hin as [Hin|Hin]; [discriminate|]).
      by apply elem_of_nil in Hin.
Qed.

Lemma insert_step_sorted_prefix_witness :
  exists (pre post : list (SortingStep Z)) (s : SortingStep Z),
    generateSteps [2; 3; 1] =
      pre ++ filter (for_target 2) (generateSteps [2; 3; 1]) ++ s :: post /\
    type s = Insert /\
    Sorted Z.le (take 3%nat (array s)) /\
    array s ≡ₚ [2; 3; 1].
Proof.
  apply (proj1 insert_step_sorted_prefix [2; 3; 1] 2%nat). simpl. lia.
Defined.

(** ** The playback cursor *)

Lemma iter_stepForward {A : Type} (steps : list (SortingStep A)) (k : nat) :
  steps <> [] ->
  Nat.iter k (stepForward steps) 0 = Z.min (Z.of_nat k) (Z.of_nat (length steps) - 1).
Proof.
  intros Hne. assert (0 < length steps)%nat by (destruct steps; simpl; [done|lia]).
  induction k as [|k IH]; [simpl; lia|].
  rewrite Nat.iter_succ, IH. unfold stepForward. lia.
Qed.

Lemma generateSteps_length_pos (l : list Z) : (2 <= length (generateSteps l))%nat.
Proof.
  unfold generateSteps, generateStepsBy. cbn zeta. simpl.
  rewrite length_app. simpl. lia.
Qed.

(** C9.  On the trace of any input, with [last] the index of its last
    step, and for any value [c] of the cursor: [stepForward] never yields
    more than [last] and [stepBackward] never yields less than [0]; neither
    takes a cursor of [[0, last]] out of [[0, last]]; [stepForward] adds one
    below [last] and yields [last] from there on, so it changes nothing at
    [last]; [stepBackward] takes one away above [0] and yields [0] from
    there down; as many calls of [stepForward] from [0] as the trace has
    steps end on [last], and so does any larger number of calls, each
    further call changing nothing. *)
Theorem playback_bounds (l : list Z) (c : Z) :
  let steps := generateSteps l in
  let last := Z.of_nat (length steps) - 1 in
  0 <= last /\
  stepForward steps c <= last /\
  0 <= stepBackward c /\
  (0 <= c -> 0 <= stepForward steps c) /\
  (c <= last -> stepBackward c <= last) /\
  (0 <= c <= last ->
     0 <= stepForward steps c <= last /\ 0 <= stepBackward c <= last) /\
  (c < last -> stepForward steps c = c + 1) /\
  (last <= c -> stepForward steps c = last) /\
  stepForward steps last = last /\
  (0 < c -> stepBackward c = c - 1) /\
  (c <= 0 -> stepBackward c = 0) /\
  stepBackward 0 = 0 /\
  Nat.iter (length steps) (stepForward steps) 0 = last /\
  (forall k, (length steps <= k)%nat ->
     Nat.iter k (stepForward steps) 0 = last /\
     stepForward steps (Nat.iter k (stepForward steps) 0) =
       Nat.iter k (stepForward steps) 0).
Proof.
  intros steps last.
  pose proof (generateSteps_length_pos l) as Hlen. fold steps in Hlen.
  assert (Hne : steps <> []) by (intros Heq; rewrite Heq in Hlen; simpl in Hlen; lia).
  assert (Hiter : forall k, (length steps <= k)%nat ->
            Nat.iter k (stepForward steps) 0 = last).
  { intros k Hk. rewrite iter_stepForward by done. fold last. lia. }
  unfold stepBackward.
  split_and!; try (unfold stepForward; fold last; lia).
  - by apply Hiter.
  - intros k Hk. rewrite (Hiter k Hk). split; [done|].
    unfold stepForward. fold last. lia.
Qed.

(** ** Equal values: the run on tagged elements *)

Section Erasure.
Context {A : Type} `{Inhabited A} (key : A -> Z).
Implicit Types (l arr : list A) (val : A) (i j : nat) (low high : Z).

Lemma narrow_erase arr val low high :
  0 <= low -> low <= high -> high < Z.of_nat (length arr) ->
  narrow (fun x => x) (key <$> arr) (key val) low high = narrow key arr val low high.
Proof.
  intros H0 Hle Hhi. pose proof (mid_bounds low high Hle).
  unfold narrow, get. by rewrite (list_lookup_total_fmap key arr) by lia.
Qed.

Lemma bsearch_erase arr val i low high :
  0 <= low -> high < Z.of_nat (length arr) ->
  bsearch (fun x => x) (key <$> arr) (key val) i low high =
  (erase key <$> (bsearch key arr val i low high).1, (bsearch key arr val i low high).2).
Proof.
  loop_induction (while_ind key arr val) low high IH. intros H0 Hhi.
  rewrite (bsearch_step key), (bsearch_step (fun x => x)).
  destruct (decide (low <= high)) as [Hle|Hle]; [|done]. cbn zeta.
  rewrite narrow_erase by done.
  destruct (narrow_bounds key arr val low high Hle) as (? & ? & _ & _).
  rewrite IH by (done || lia). done.
Qed.

Lemma shift_loop_erase (pos : nat) i j arr :
  (j < length arr)%nat ->
  shift_loop pos i j (key <$> arr) =
  (erase key <$> (shift_loop pos i j arr).1, key <$> (shift_loop pos i j arr).2).
Proof.
  revert arr. induction j as [|j IH]; intros arr Hj; [done|].
  simpl. destruct (pos <? S j)%nat; [|done].
  rewrite (list_lookup_total_fmap key arr) by lia. rewrite <- list_fmap_insert.
  rewrite IH by (rewrite length_insert; lia). done.
Qed.

Lemma iteration_erase i arr :
  (i < length arr)%nat ->
  iteration (fun x => x) i (key <$> arr) =
  (erase key <$> (iteration key i arr).1, key <$> (iteration key i arr).2).
Proof.
  intros Hi. unfold iteration.
  rewrite (list_lookup_total_fmap key arr) by lia.
  rewrite bsearch_erase by lia. cbn [fst snd].
  rewrite shift_loop_erase by lia. cbn [fst snd].
  rewrite <- list_fmap_insert.
  by rewrite fmap_cons, fmap_app, fmap_cons, fmap_app.
Qed.

Lemma for_loop_erase count i arr :
  (i + count <= length arr)%nat ->
  for_loop (fun x => x) count i (key <$> arr) =
  (erase key <$> (for_loop key count i arr).1, key <$> (for_loop key count i arr).2).
Proof.
  revert i arr. induction count as [|c IH]; intros i arr Hle; [done|].
  rewrite !for_loop_S, iteration_erase by lia. cbn [fst snd].
  rewrite IH by (rewrite iteration_length; lia). cbn [fst snd].
  by rewrite fmap_app.
Qed.

(** The trace of the tagged run, tags erased, is the trace of
    [generateSteps] on the untagged input. *)
Lemma generateStepsBy_erase l :
  erase key <$> generateStepsBy key l = generateSteps (key <$> l).
Proof.
  destruct l as [|a l]; [done|].
  unfold generateSteps, generateStepsBy. cbn zeta.
  rewrite length_fmap, for_loop_erase by (simpl; lia). cbn [fst snd].
  by rewrite fmap_cons, fmap_app.
Qed.

End Erasure.

(** C2 does not hold of the code.  On equality the comparison takes the
    branch [high = mid - 1]; the search therefore resolves to the first
    position whose value is not below the inserted one, and the inserted
    element goes in front of the equal elements that came before it.  Run
    on elements tagged with their input position (which erases to the run of
    [generateSteps]), the sort leaves the elements of equal value in the
    reverse of their input order: [[4a; 4b]] ends as [[4b; 4a]], and the
    trace of [[4; 4]] shows the shift that exchanges them. *)
Theorem equal_values_are_reversed :
  (forall (arr : list Z) (val low high : Z),
      get arr ((low + high) / 2) = val ->
      narrow (fun x => x) arr val low high = (low, (low + high) / 2 - 1)) /\
  (forall l : list (Z * nat),
      erase fst <$> generateStepsBy fst l = generateSteps (fst <$> l)) /\
  (forall (l : list (Z * nat)) (x : Z),
      with_key fst x (final_array fst l) = reverse (with_key fst x l)) /\
  array <$> last (generateStepsBy fst [(4, 0%nat); (4, 1%nat)]) =
    Some [(4, 1%nat); (4, 0%nat)] /\
  generateSteps [4; 4] =
    [init_step [4; 4]; start_step [4; 4] 1; probe_step [4; 4] 1 0 0;
     resolved_step [4; 4] 1 0; shift_step [4; 4] 1 1; insert_step [4; 4] 0;
     complete_step [4; 4] 2].
Proof.
  split_and!.
  - intros arr val low high Heq. unfold narrow. rewrite Heq.
    by rewrite Z.ltb_irrefl.
  - intros l. apply generateStepsBy_erase.
  - intros l x. apply final_array_sorted.
  - by vm_compute.
  - by vm_compute.
Qed.

(** * Further properties of the trace *)

(** ** Every step of the trace, round by round *)

Section Rounds.
Context {A : Type} `{Inhabited A} (key : A -> Z).
Implicit Types (l arr : list A) (i : nat) (Q : SortingStep A -> Prop).

(** A property of all the steps of a round follows from the property of its
    start step, of the probes of non-empty ranges below [i], of its resolved
    step, of its shift steps and of its insert step. *)
Lemma iteration_Forall Q i arr :
  Q (start_step arr i) ->
  (forall lo hi, 0 <= lo -> lo <= hi -> hi <= Z.of_nat i - 1 ->
                 Q (probe_step arr i lo hi)) ->
  Q (resolved_step arr i (resolved_pos key arr i)) ->
  (forall k, (k < i - resolved_pos key arr i)%nat ->
             Q (shift_step (shifted arr i k) i (i - k))) ->
  Q (insert_step (iteration key i arr).2 (resolved_pos key arr i)) ->
  Forall Q (iteration key i arr).1.
Proof.
  intros Hstart Hprobe Hres Hshift Hins.
  rewrite iteration_steps. apply Forall_app. split; [|by repeat constructor].
  unfold round_block. constructor; [done|].
  apply Forall_app. split; [|constructor; [done|]].
  - eapply Forall_impl; [apply (bsearch_probes key)|]. simpl.
    intros s (lo & hi & -> & ? & ? & ?). by apply Hprobe.
  - rewrite shift_loop_steps. apply Forall_fmap, Forall_forall.
    intros k [_ Hk]%elem_of_seq. simpl. apply Hshift. lia.
Qed.

(** The steps of the loop are the steps of its rounds, each entered with
    the array the rounds before it left. *)
Lemma for_loop_rounds l count :
  (for_loop key count 1 l).1 =
  concat ((fun i => (iteration key i (array_before key l i)).1) <$> seq 1 count).
Proof.
  induction count as [|c IH]; [done|].
  replace (S c) with (c + 1)%nat by lia.
  rewrite for_loop_add, seq_app, fmap_app, concat_app, <- IH. cbn [fst].
  rewrite for_loop_S. simpl. rewrite !(right_id_L [] (++)).
  unfold array_before. by replace (S c - 1)%nat with c by lia.
Qed.

(** A property of all the steps of the trace follows from the property of
    the first step, of the last step and of the steps of every round. *)
Lemma trace_Forall Q l :
  Q (init_step l) ->
  Q (complete_step (final_array key l) (length l)) ->
  (forall i, (1 <= i < length l)%nat ->
             Forall Q (iteration key i (array_before key l i)).1) ->
  Forall Q (generateStepsBy key l).
Proof.
  intros Hinit Hcomplete Hround. unfold generateStepsBy. cbn zeta.
  fold (final_array key l). constructor; [done|].
  apply Forall_app. split; [|by repeat constructor].
  rewrite for_loop_rounds. rewrite Forall_concat. apply Forall_fmap, Forall_forall.
  intros i [Hi1 Hi2]%elem_of_seq. simpl. apply Hround. lia.
Qed.

(** The array keeps its length and its values through the assignments of
    the shift loop. *)
Lemma shifted_length arr (j k : nat) : length (shifted arr j k) = length arr.
Proof.
  revert arr j. induction k as [|k IH]; intros arr j; [done|].
  simpl. by rewrite IH, length_insert.
Qed.

Lemma insert_lookup_subseteq arr (j m : nat) :
  (m < length arr)%nat -> <[j := arr !!! m]> arr ⊆ arr.
Proof.
  intros Hm x [n Hn]%list_elem_of_lookup.
  destruct (decide (n = j)) as [->|Hne].
  - assert (j < length arr)%nat.
    { apply lookup_lt_Some in Hn. by rewrite length_insert in Hn. }
    rewrite list_lookup_insert_eq in Hn by done. injection Hn as <-.
    by apply list_elem_of_lookup_total_2.
  - rewrite list_lookup_insert_ne in Hn by done.
    apply list_elem_of_lookup. by exists n.
Qed.

Lemma shifted_subseteq arr (j k : nat) :
  (j < length arr)%nat -> shifted arr j k ⊆ arr.
Proof.
  revert arr j. induction k as [|k IH]; intros arr j Hj; [done|].
  simpl. etrans; [apply IH; rewrite length_insert; lia|].
  apply insert_lookup_subseteq. lia.
Qed.

End Rounds.

(** C6, as the code has it.  The trace is the init step, the steps of the
    rounds for [i = 1, ..., n - 1] in this order, and the complete step; the
    steps of the round for [i] are the ones its run of the loop body pushes,
    on the array the earlier rounds left.  Every [search] and every [shift]
    step of the round for [i] carries [targetIdx = i], the cursor of the
    outer loop, whatever its own indices are; the [insert] step of the
    round carries none, and neither do the init and the complete step. *)
Theorem target_index_by_kind (l : list Z) :
  let round i := (iteration (fun x => x) i (array_before (fun x => x) l i)).1 in
  let first := init_step l in
  let final := complete_step (final_array (fun x => x) l) (length l) in
  generateSteps l = first :: concat (round <$> seq 1 (length l - 1)) ++ [final] /\
  (type first = Init /\ targetIdx first = None) /\
  (type final = Complete /\ targetIdx final = None) /\
  (forall (i : nat) (s : SortingStep Z),
     s ∈ round i ->
     match type s with
     | Search | Shift => targetIdx s = Some (Z.of_nat i)
     | Insert => targetIdx s = None
     | Init | Complete => False
     end) /\
  (forall s : SortingStep Z,
     s ∈ generateSteps l ->
     match type s with
     | Search | Shift =>
         exists i : nat,
           (1 <= i < length l)%nat /\ s ∈ round i /\ targetIdx s = Some (Z.of_nat i)
     | Insert | Init | Complete => targetIdx s = None
     end).
Proof.
  intros round first final.
  assert (Hround : forall (i : nat) (s : SortingStep Z),
     s ∈ round i ->
     match type s with
     | Search | Shift => targetIdx s = Some (Z.of_nat i)
     | Insert => targetIdx s = None
     | Init | Complete => False
     end).
  { intros i s Hs.
    pose proof (iteration_shape (fun x => x) i (array_before (fun x => x) l i)) as Hsh.
    rewrite Forall_forall in Hsh. by destruct (Hsh s Hs). }
  assert (Htr : generateSteps l =
                first :: concat (round <$> seq 1 (length l - 1)) ++ [final]).
  { unfold generateSteps, generateStepsBy. cbn zeta.
    by rewrite (for_loop_rounds (fun x => x)). }
  split_and!; try done.
  intros s Hs. rewrite Htr in Hs.
  apply elem_of_cons in Hs as [->|Hs]; [done|].
  apply elem_of_app in Hs as [Hs|Hs].
  - apply list_elem_of_In, in_concat in Hs as (t & Ht & Hs).
    apply list_elem_of_In in Ht, Hs.
    apply list_elem_of_fmap in Ht as (i & -> & [Hi1 Hi2]%elem_of_seq).
    pose proof (Hround i s Hs) as Hk.
    destruct (type s); try done; exists i; (split; [lia|done]).
  - apply list_elem_of_singleton in Hs as ->. done.
Qed.

Lemma target_index_by_kind_witness :
  exists s : SortingStep Z,
    generateSteps [5; 3; 1] !! 10%nat = Some s /\
    type s = Shift /\
    indices s = [1; 0] /\
    targetIdx s = Some 2.
Proof.
  exists (shift_step [3; 5; 5] 2 1).
  split_and!; [reflexivity..|].
  apply (proj1 (proj2 (proj2 (proj2 (target_index_by_kind [5; 3; 1]))))
           2%nat (shift_step [3; 5; 5] 2 1)).
  vm_compute. do 4 right. left.
Defined.

(** ** Snapshots and indices *)

Section StepFits.
Context {A : Type} `{Inhabited A} (key : A -> Z).
Implicit Types (l arr : list A) (i : nat).

Lemma all_indices_valid (n : nat) :
  Forall (fun x => 0 <= x < Z.of_nat n) (all_indices n).
Proof.
  unfold all_indices. apply Forall_fmap, Forall_forall.
  intros k [_ Hk]%elem_of_seq. simpl. lia.
Qed.

Lemma trace_fits l : Forall (step_fits l) (generateStepsBy key l).
Proof.
  apply trace_Forall.
  - by split_and!.
  - destruct (final_array_sorted key l) as (_ & Hperm & _).
    split_and!; simpl; [by rewrite Hperm| |apply all_indices_valid|done|done].
    intros x Hx. by rewrite <- Hperm.
  - intros i Hi.
    destruct (array_before_inv key l i) as [Hlen Hperm _ _ _]; [lia|].
    destruct (array_before_inv key l (S i)) as [Hlen' Hperm' _ _ _]; [lia|].
    rewrite array_before_S in Hlen', Hperm' by lia.
    set (arr := array_before key l i) in *.
    pose proof (resolved_pos_le key arr i) as Hpos.
    assert (Hsub : arr ⊆ l) by (intros x Hx; by rewrite <- Hperm).
    apply (iteration_Forall key).
    + split_and!; simpl; [done|done|constructor|intros t [= <-]; lia|done].
    + intros lo hi H0 Hle Hhi. pose proof (mid_bounds lo hi Hle).
      split_and!; simpl; [done|done|repeat constructor; lia|
                          intros t [= <-]; lia|intros lo' hi' [= <- <-]; lia].
    + split_and!; simpl; [done|done|repeat constructor; lia|
                          intros t [= <-]; lia|done].
    + intros k Hk.
      split_and!; simpl; [by rewrite shifted_length| |repeat constructor; lia|
                          intros t [= <-]; lia|done].
      etrans; [apply shifted_subseteq; lia|done].
    + split_and!; simpl; [done| |repeat constructor; lia|done|done].
      intros x Hx. by rewrite <- Hperm'.
Qed.

End StepFits.

(** X1.  Every snapshot of the trace has the length of the input and holds
    values of the input only; this includes the snapshots of shift steps,
    which may show a value twice. *)
Theorem snapshots_keep_length_and_values (l : list Z) :
  Forall (fun s => length (array s) = length l /\ array s ⊆ l) (generateSteps l).
Proof.
  eapply Forall_impl; [apply (trace_fits (fun x => x))|].
  by intros s (? & ? & _).
Qed.

(** X2.  In every step of the trace, each member of [indices], the
    [targetIdx] and both ends of the [searchRange] are positions of the
    step's own snapshot, and the range is not empty. *)
Theorem step_indices_in_snapshot (l : list Z) :
  Forall (fun s =>
            let n := Z.of_nat (length (array s)) in
            Forall (fun x => 0 <= x < n) (indices s) /\
            (forall t, targetIdx s = Some t -> 0 <= t < n) /\
            (forall lo hi, searchRange s = Some (lo, hi) ->
                           0 <= lo /\ lo <= hi /\ hi < n))
         (generateSteps l).
Proof.
  eapply Forall_impl; [apply (trace_fits (fun x => x))|].
  intros s (Hlen & _ & Hidx & Ht & Hr). cbn zeta. rewrite Hlen. by split_and!.
Qed.

(** X3.  Every step of the trace has a [codeLine], and it is the index of a
    line of [CODE_PYTHON] that is not blank: the header for the [init] and
    [complete] steps, the assignment [arr[j] = arr[j - 1]] for a shift step,
    [arr[pos] = val] for an insert step, and for a search step the call of
    the search, the line that computes [mid], or the [return]. *)
Theorem code_line_in_listing (l : list Z) :
  Forall (fun s =>
            exists (c : Z) (line : string),
              codeLine s = Some c /\ 0 <= c /\
              CODE_PYTHON !! Z.to_nat c = Some line /\
              line <> ""%string /\
              match type s with
              | Init | Complete => line = "def binary_insertion_sort(arr):"%string
              | Shift => line = "            arr[j] = arr[j - 1]"%string
              | Insert => line = "        arr[pos] = val"%string
              | Search =>
                  line = "        pos = binary_search(arr, val, 0, i - 1)"%string \/
                  line = "        mid = (start + end) // 2"%string \/
                  line = "    return start"%string
              end)
         (generateSteps l).
Proof.
  apply Forall_forall. intros s Hs.
  apply trace_shape in Hs as [->|[->|(i & _ & Hround)]];
    [| |destruct Hround]; simpl; eexists _, _;
    (split; [reflexivity|]); (split; [lia|]); (split; [reflexivity|]);
    (split; [discriminate|]); auto.
Qed.

(** ** What changes the snapshot *)

Section KeepsArray.
Context {A : Type} `{Inhabited A} (key : A -> Z).
Implicit Types (l arr : list A) (i : nat) (t : list (SortingStep A)).

Lemma Adj_glue {S : Type} (P : S -> S -> Prop) (l1 l2 : list S) (m : S) :
  Adj P (l1 ++ [m]) -> Adj P (m :: l2) -> Adj P (l1 ++ m :: l2).
Proof.
  intros H1 [Hm H2]. rewrite cons_middle, (assoc_L (++)).
  apply Adj_app; [done..|].
  intros x y. rewrite last_snoc. intros [= <-] Hy. by destruct l2; simplify_eq/=.
Qed.

Lemma Adj_same_array arr t :
  Forall (fun s => array s = arr) t -> Adj keeps_array t.
Proof.
  induction 1 as [|x t Hx Ht IH]; [done|]. split; [|done].
  destruct Ht as [|y t Hy _]; [done|]. intros _. congruence.
Qed.

Lemma insert_lookup_total_same arr i : <[i := arr !!! i]> arr = arr.
Proof.
  apply list_insert_id'. intros Hi. by apply list_lookup_lookup_total_lt.
Qed.

(** The steps of a round, after a step [x] that shows the array the round
    begins with. *)
Lemma iteration_keeps_array i arr (x : SortingStep A) :
  array x = arr -> Adj keeps_array (x :: (iteration key i arr).1).
Proof.
  intros Hx. rewrite iteration_steps. unfold round_block.
  set (pos := resolved_pos key arr i).
  pose proof (resolved_pos_le key arr i) as Hpos. fold pos in Hpos.
  rewrite <- app_comm_cons, <- (assoc_L (++)), <- app_comm_cons.
  rewrite 2!app_comm_cons.
  apply Adj_glue.
  - apply (Adj_same_array arr). rewrite <- !app_comm_cons.
    repeat (apply Forall_cons; split; [done|]).
    apply Forall_app. split; [|by repeat constructor].
    eapply Forall_impl; [apply (bsearch_probes key)|]. simpl.
    by intros s (lo & hi & -> & _).
  - rewrite shift_loop_steps.
    destruct (decide (i - pos = 0)%nat) as [Hz|Hnz].
    + rewrite Hz. simpl. split; [|done]. intros _.
      unfold iteration. cbn [snd]. fold (resolved_pos key arr i). fold pos.
      rewrite shift_loop_stop by lia. cbn [snd].
      replace pos with i by lia. apply insert_lookup_total_same.
    + replace (i - pos)%nat with (S (i - pos - 1)) by lia.
      rewrite <- cons_seq, fmap_cons. split; [done|].
      apply Adj_app; [|done|].
      * apply (Adj_Forall _ (fun s => type s = Shift)); [by intros s s' Hs Hn|].
        constructor; [done|]. apply Forall_fmap, Forall_forall. by intros k _.
      * intros s s' Hs _ Hn. exfalso. apply Hn.
        apply last_Some_elem_of in Hs.
        apply elem_of_cons in Hs as [->|Hs]; [done|].
        apply list_elem_of_fmap in Hs as (k & -> & _). done.
Qed.

(** The steps of the loop, between a step that shows the array the loop
    begins with and a step that shows the array it ends with. *)
Lemma for_loop_keeps_array count i arr (x y : SortingStep A) :
  array x = arr -> array y = (for_loop key count i arr).2 ->
  Adj keeps_array (x :: (for_loop key count i arr).1 ++ [y]).
Proof.
  revert i arr x. induction count as [|c IH]; intros i arr x Hx Hy.
  - simpl in *. split; [|done]. intros _. congruence.
  - rewrite for_loop_S in *. cbn [fst snd] in *.
    rewrite iteration_steps, <- !(assoc_L (++)). cbn [app].
    rewrite app_comm_cons. apply Adj_glue.
    + rewrite <- app_comm_cons, <- iteration_steps. by apply iteration_keeps_array.
    + by apply IH.
Qed.

Lemma trace_keeps_array l : Adj keeps_array (generateStepsBy key l).
Proof.
  unfold generateStepsBy. cbn zeta. by apply for_loop_keeps_array.
Qed.

End KeepsArray.

(** X4.  The snapshot changes only after a shift step: when a step of the
    trace is not a shift step, the step that follows shows the same
    array. *)
Theorem snapshot_changes_only_after_shift
    (l : list Z) (pre post : list (SortingStep Z)) (s s' : SortingStep Z) :
  generateSteps l = pre ++ s :: s' :: post ->
  type s <> Shift ->
  array s' = array s.
Proof.
  intros Htr Hs.
  exact (Adj_split _ _ pre post s s' (trace_keeps_array (fun x => x) l) Htr Hs).
Qed.

Lemma snapshot_changes_only_after_shift_witness :
  array (start_step [3; 5; 1] 2) = array (insert_step [3; 5; 1] 0).
Proof.
  apply (snapshot_changes_only_after_shift [5; 3; 1]
           [init_step [5; 3; 1]; start_step [5; 3; 1] 1; probe_step [5; 3; 1] 1 0 0;
            resolved_step [5; 3; 1] 1 0; shift_step [5; 3; 1] 1 1]
           [probe_step [3; 5; 1] 2 0 1; resolved_step [3; 5; 1] 2 0;
            shift_step [3; 5; 1] 2 2; shift_step [3; 5; 5] 2 1;
            insert_step [1; 3; 5] 0; complete_step [1; 3; 5] 3]
           (insert_step [3; 5; 1] 0) (start_step [3; 5; 1] 2)).
  - vm_compute. reflexivity.
  - discriminate.
Defined.

(** ** How many steps *)

Section Counting.
Context {T : Type} (P : T -> Prop) `{!forall x, Decision (P x)}.

(** Rounds [lo], [lo + 1], ... that have at most, or exactly, as many steps
    with [P] as their index. *)
Lemma filter_rounds_le (f : nat -> list T) (lo count : nat) :
  (forall i, (lo <= i < lo + count)%nat -> (length (filter P (f i)) <= i)%nat) ->
  2 * Z.of_nat (length (filter P (concat (f <$> seq lo count)))) <=
  Z.of_nat count * (2 * Z.of_nat lo + Z.of_nat count - 1).
Proof.
  revert lo. induction count as [|c IH]; intros lo Hf; [simpl; lia|].
  rewrite <- cons_seq, fmap_cons. simpl concat. rewrite filter_app, length_app.
  specialize (IH (S lo)). specialize (Hf lo) as Hlo.
  assert (2 * Z.of_nat (length (filter P (concat (f <$> seq (S lo) c)))) <=
          Z.of_nat c * (2 * Z.of_nat (S lo) + Z.of_nat c - 1)) as IH'
    by (apply IH; intros i Hi; apply Hf; lia).
  assert (length (filter P (f lo)) <= lo)%nat by (apply Hlo; lia).
  nia.
Qed.

Lemma filter_rounds_eq (f : nat -> list T) (lo count : nat) :
  (forall i, (lo <= i < lo + count)%nat -> length (filter P (f i)) = i) ->
  2 * Z.of_nat (length (filter P (concat (f <$> seq lo count)))) =
  Z.of_nat count * (2 * Z.of_nat lo + Z.of_nat count - 1).
Proof.
  revert lo. induction count as [|c IH]; intros lo Hf; [simpl; lia|].
  rewrite <- cons_seq, fmap_cons. simpl concat. rewrite filter_app, length_app.
  specialize (IH (S lo)). specialize (Hf lo) as Hlo.
  assert (2 * Z.of_nat (length (filter P (concat (f <$> seq (S lo) c)))) =
          Z.of_nat c * (2 * Z.of_nat (S lo) + Z.of_nat c - 1)) as IH'
    by (apply IH; intros i Hi; apply Hf; lia).
  assert (length (filter P (f lo)) = lo) by (apply Hlo; lia).
  nia.
Qed.
End Counting.

Section StepCounts.
Context {A : Type} `{Inhabited A} (key : A -> Z).
Implicit Types (l arr : list A) (val : A) (i : nat) (low high : Z).

(** A round has as many shift steps as the inserted element moves places. *)
Lemma shift_count_iteration i arr :
  length (filter (fun s => type s = Shift) (iteration key i arr).1) =
  (i - resolved_pos key arr i)%nat.
Proof.
  rewrite iteration_steps. unfold round_block.
  rewrite filter_app, filter_cons_False by done.
  rewrite filter_app, filter_cons_False by done.
  rewrite (filter_cons_False _ (insert_step _ _)) by done.
  rewrite filter_none, filter_all, shift_loop_steps.
  - rewrite filter_nil, !length_app, length_fmap, length_seq. simpl. lia.
  - rewrite shift_loop_steps. apply Forall_fmap, Forall_forall. by intros k _.
  - eapply Forall_impl; [apply (bsearch_probes key)|]. simpl.
    by intros s (lo & hi & -> & _) [=].
Qed.

Lemma shift_count_trace l :
  filter (fun s => type s = Shift) (generateStepsBy key l) =
  filter (fun s => type s = Shift)
    (concat ((fun i => (iteration key i (array_before key l i)).1) <$>
             seq 1 (length l - 1))).
Proof.
  unfold generateStepsBy. cbn zeta.
  rewrite filter_cons_False, filter_app, filter_cons_False by done.
  by rewrite filter_nil, (right_id_L [] (++)), for_loop_rounds.
Qed.

(** Each probe at least halves the range: with [p] probes from a range of
    width [w >= 1], [2 ^ p <= 2 * w]. *)
Lemma bsearch_probe_count arr val i low high :
  2 ^ Z.of_nat (length (bsearch key arr val i low high).1) <=
  Z.max 1 (2 * (high - low + 1)).
Proof.
  loop_induction (while_ind key arr val) low high IH.
  rewrite bsearch_step. destruct (decide (low <= high)) as [Hle|Hle]; [|simpl; lia].
  specialize (IH Hle). pose proof (mid_bounds low high Hle) as Hmid.
  cbn zeta. cbn [fst length]. rewrite Nat2Z.inj_succ, Z.pow_succ_r by lia.
  revert IH. unfold narrow. destruct (_ <? _); cbn [fst snd]; intros IH.
  - assert (2 * (high - ((low + high) / 2 + 1) + 1) <= high - low + 1)
      by (pose proof (Z.mul_succ_div_gt (low + high) 2); lia).
    lia.
  - assert (2 * ((low + high) / 2 - 1 - low + 1) <= high - low + 1)
      by (pose proof (Z.mul_div_le (low + high) 2); lia).
    lia.
Qed.

Lemma bsearch_probe_first arr val i low high :
  low <= high -> (1 <= length (bsearch key arr val i low high).1)%nat.
Proof.
  intros Hle. rewrite bsearch_step. destruct (decide (low <= high)); [|lia].
  simpl. lia.
Qed.

Lemma filter_probe_trace l i :
  (1 <= i < length l)%nat ->
  filter (is_probe_of i) (generateStepsBy key l) =
  (bsearch key (array_before key l i) (array_before key l i !!! i) i 0
     (Z.of_nat i - 1)).1.
Proof.
  intros Hi.
  rewrite (filter_split _ (fun s => is_Some (searchRange s)) (for_target i)) by done.
  rewrite (filter_target_trace key l i Hi). unfold round_block.
  rewrite filter_cons_False by (by intros [? [=]]).
  rewrite filter_app, filter_cons_False by (by intros [? [=]]).
  rewrite filter_all, filter_none.
  - by rewrite (right_id_L [] (++)).
  - rewrite shift_loop_steps. apply Forall_fmap, Forall_forall.
    by intros k _ [? [=]].
  - eapply Forall_impl; [apply (bsearch_probes key)|]. simpl.
    by intros s (lo & hi & -> & _).
Qed.

End StepCounts.

(** X5.  The trace has at most [n * (n - 1) / 2] shift steps, for an input
    of length [n]. *)
Theorem shift_steps_at_most_quadratic (l : list Z) :
  (2 * length (filter (fun s => type s = Shift) (generateSteps l)) <=
   length l * (length l - 1))%nat.
Proof.
  unfold generateSteps. rewrite shift_count_trace.
  pose proof (filter_rounds_le (fun s : SortingStep Z => type s = Shift)
    (fun i => (iteration (fun x => x) i (array_before (fun x => x) l i)).1)
    1 (length l - 1)) as Hle.
  assert (Hround : forall i, (1 <= i < 1 + (length l - 1))%nat ->
    (length (filter (fun s : SortingStep Z => type s = Shift)
       (iteration (fun x => x) i (array_before (fun x => x) l i)).1) <= i)%nat).
  { intros i _. rewrite shift_count_iteration. lia. }
  specialize (Hle Hround). nia.
Qed.

(** X6.  A round makes at least one probe and at most [log2 i + 1]: with
    [p] the number of probes of round [i], [2 ^ p <= 2 * i]. *)
Theorem probes_at_most_logarithmic (l : list Z) (i : nat) :
  (1 <= i < length l)%nat ->
  let p := Z.of_nat (length (filter (is_probe_of i) (generateSteps l))) in
  1 <= p /\ 2 ^ p <= 2 * Z.of_nat i /\ p <= Z.log2 (Z.of_nat i) + 1.
Proof.
  intros Hi p. unfold p, generateSteps. rewrite filter_probe_trace by done.
  set (arr := array_before (fun x => x) l i).
  pose proof (bsearch_probe_count (fun x => x) arr (arr !!! i) i 0 (Z.of_nat i - 1)) as Hp.
  pose proof (bsearch_probe_first (fun x => x) arr (arr !!! i) i 0 (Z.of_nat i - 1)) as Hf.
  set (n := length (bsearch (fun x => x) arr (arr !!! i) i 0 (Z.of_nat i - 1)).1) in *.
  assert (1 <= n)%nat by (apply Hf; lia).
  assert (Hpow : 2 ^ Z.of_nat n <= 2 * Z.of_nat i) by lia.
  split_and!; [lia|done|].
  assert (Z.of_nat n - 1 <= Z.log2 (Z.of_nat i)); [|lia].
  apply Z.log2_le_pow2; [lia|].
  replace (Z.of_nat n) with (Z.succ (Z.of_nat n - 1)) in Hpow by lia.
  rewrite Z.pow_succ_r in Hpow by lia. lia.
Qed.

Lemma probes_at_most_logarithmic_witness :
  let p := Z.of_nat (length (filter (is_probe_of 3) (generateSteps [5; 3; 8; 1]))) in
  1 <= p /\ 2 ^ p <= 2 * Z.of_nat 3 /\ p <= Z.log2 (Z.of_nat 3) + 1.
Proof.
  apply (probes_at_most_logarithmic [5; 3; 8; 1] 3). simpl. lia.
Defined.

(** ** Inputs in order, and in reverse order *)

Section Monotone.
Context {A : Type} `{Inhabited A} (key : A -> Z).
Implicit Types (l arr : list A) (i : nat).

Lemma StronglySorted_lookup_lt (R : A -> A -> Prop) l (j k : nat) :
  StronglySorted R l -> (j < k < length l)%nat -> R (l !!! j) (l !!! k).
Proof.
  intros Hs. revert j k. induction Hs as [|x l Hs IH Hx]; intros j k Hjk; simpl in *; [lia|].
  destruct j as [|j], k as [|k]; simpl; try lia.
  - apply (Forall_lookup_total_1 _ _ k Hx). lia.
  - apply IH. lia.
Qed.

(** On an input with strictly increasing keys every search resolves to
    [i]: the element stays where it is. *)
Lemma resolved_pos_increasing l i :
  StronglySorted (fun a b => key a < key b) l -> (i < length l)%nat ->
  resolved_pos key l i = i.
Proof.
  intros Hinc Hi.
  pose proof (bsearch_bounds key l (l !!! i) i 0 (Z.of_nat i - 1)) as Hb.
  destruct (bsearch_lower_bound key l (l !!! i) i 0 (Z.of_nat i - 1))
    as [_ Hge]; [lia|lia|lia| |intros; lia|intros; lia|].
  { intros j k Hjk. destruct (decide (j = k)) as [->|Hne]; [lia|].
    pose proof (StronglySorted_lookup_lt _ l j k Hinc). simpl in *. lia. }
  unfold resolved_pos.
  set (p := (bsearch key l (l !!! i) i 0 (Z.of_nat i - 1)).2) in *.
  destruct (decide (p < Z.of_nat i)) as [Hlt|]; [|lia].
  specialize (Hge (Z.to_nat p)).
  pose proof (StronglySorted_lookup_lt _ l (Z.to_nat p) i Hinc). simpl in *. lia.
Qed.

Lemma iteration_increasing l i :
  StronglySorted (fun a b => key a < key b) l -> (i < length l)%nat ->
  (iteration key i l).2 = l.
Proof.
  intros Hinc Hi. unfold iteration. cbn [snd].
  fold (resolved_pos key l i). rewrite resolved_pos_increasing by done.
  rewrite shift_loop_stop by lia. apply list_insert_id'.
  intros _. by apply list_lookup_lookup_total_lt.
Qed.

Lemma array_before_increasing l i :
  StronglySorted (fun a b => key a < key b) l -> (1 <= i <= length l)%nat ->
  array_before key l i = l.
Proof.
  intros Hinc. induction i as [|i IH]; intros Hi; [lia|].
  destruct (decide (i = 0)%nat) as [->|Hi0]; [done|].
  rewrite array_before_S, IH by lia. apply iteration_increasing; [done|lia].
Qed.

(** On an input with strictly decreasing keys every search resolves to
    [0]: the element goes to the front. *)
Lemma resolved_pos_decreasing l i :
  StronglySorted (fun a b => key b < key a) l -> (1 <= i < length l)%nat ->
  resolved_pos key (array_before key l i) i = 0%nat.
Proof.
  intros Hdec Hi.
  destruct (array_before_inv key l i) as [Hlen Hperm Hsorted Hrest _]; [lia|].
  set (arr := array_before key l i) in *.
  assert (Hv : arr !!! i = l !!! i).
  { rewrite <- (Nat.add_0_r i), <- !lookup_total_drop. by rewrite Hrest. }
  assert (Hpre : take i arr ≡ₚ take i l).
  { apply (Permutation_app_inv_r (drop i arr)).
    rewrite take_drop, Hrest, take_drop. done. }
  assert (Hidx : forall j k : nat, (j <= k < i)%nat -> key (arr !!! j) <= key (arr !!! k)).
  { intros j k Hjk.
    rewrite <- (lookup_total_take_lt arr i j), <- (lookup_total_take_lt arr i k) by lia.
    apply StronglySorted_lookup_total; [done|]. rewrite length_take. lia. }
  pose proof (bsearch_bounds key arr (arr !!! i) i 0 (Z.of_nat i - 1)) as Hb.
  destruct (bsearch_lower_bound key arr (arr !!! i) i 0 (Z.of_nat i - 1))
    as [Hlt _]; [lia|lia|lia|done|intros; lia|intros; lia|].
  unfold resolved_pos.
  set (p := (bsearch key arr (arr !!! i) i 0 (Z.of_nat i - 1)).2) in *.
  destruct (decide (0 < p)) as [Hp|]; [|lia]. exfalso.
  specialize (Hlt 0%nat Hp).
  assert (Hin : arr !!! 0%nat ∈ take i l).
  { rewrite <- Hpre. apply list_elem_of_lookup. exists 0%nat.
    rewrite lookup_take_lt by lia. apply list_lookup_lookup_total_lt. lia. }
  apply elem_of_take in Hin as (m & Hm & Hmi).
  apply list_lookup_total_correct in Hm.
  pose proof (StronglySorted_lookup_lt _ l m i Hdec). simpl in *.
  rewrite Hv, <- Hm in Hlt. lia.
Qed.

End Monotone.

(** X7.  On a strictly increasing input the trace has no shift step and
    every snapshot is the input. *)
Theorem increasing_input_is_left_alone (l : list Z) :
  StronglySorted Z.lt l ->
  Forall (fun s => array s = l /\ type s <> Shift) (generateSteps l).
Proof.
  intros Hinc.
  assert (Hinc' : StronglySorted (fun a b : Z => (fun x => x) a < (fun x => x) b) l)
    by exact Hinc.
  apply (trace_Forall (fun x => x)).
  - done.
  - split; [|done]. simpl. destruct l as [|a l]; [done|].
    apply (array_before_increasing (fun x => x) (a :: l) (length (a :: l)) Hinc').
    simpl. lia.
  - intros i Hi. rewrite (array_before_increasing (fun x => x)) by (done || lia).
    apply (iteration_Forall (fun x => x)); try done.
    + intros k Hk. rewrite (resolved_pos_increasing (fun x => x)) in Hk by (done || lia).
      lia.
    + split; [|done]. simpl. apply (iteration_increasing (fun x => x)); [done|lia].
Qed.

Lemma increasing_input_is_left_alone_witness :
  Forall (fun s => array s = [1; 2; 3; 4] /\ type s <> Shift)
         (generateSteps [1; 2; 3; 4]).
Proof.
  apply (increasing_input_is_left_alone [1; 2; 3; 4]).
  repeat constructor.
Defined.

(** X8.  On a strictly decreasing input of length [n] every round resolves
    to position 0: its resolved search step records [indices = [0]], and
    the round has [i] shift steps.  The trace has exactly [n * (n - 1) / 2]
    shift steps: the bound on the shift steps is reached. *)
Theorem decreasing_input_is_worst_case (l : list Z) :
  StronglySorted (fun a b => b < a) l ->
  (forall i, (1 <= i < length l)%nat ->
     exists r : SortingStep Z,
       filter (is_resolved_of i) (generateSteps l) = [r] /\
       indices r = [0] /\
       length (filter (is_shift_of i) (generateSteps l)) = i) /\
  (2 * length (filter (fun s => type s = Shift) (generateSteps l)) =
   length l * (length l - 1))%nat.
Proof.
  intros Hdec. unfold generateSteps. split.
  - intros i Hi.
    exists (resolved_step (array_before (fun x => x) l i) i 0).
    rewrite filter_resolved_trace, filter_shift_trace, shift_loop_steps by done.
    rewrite (resolved_pos_decreasing (fun x => x)) by (done || lia).
    rewrite length_fmap, length_seq.
    split_and!; [done|done|lia].
  - rewrite shift_count_trace.
    pose proof (filter_rounds_eq (fun s : SortingStep Z => type s = Shift)
      (fun i => (iteration (fun x => x) i (array_before (fun x => x) l i)).1)
      1 (length l - 1)) as Heq.
    assert (Hround : forall i, (1 <= i < 1 + (length l - 1))%nat ->
      length (filter (fun s : SortingStep Z => type s = Shift)
         (iteration (fun x => x) i (array_before (fun x => x) l i)).1) = i).
    { intros i Hi. rewrite shift_count_iteration.
      rewrite (resolved_pos_decreasing (fun x => x)) by (done || lia). lia. }
    specialize (Heq Hround). nia.
Qed.

Lemma decreasing_input_is_worst_case_witness :
  (forall i, (1 <= i < length [4; 3; 2; 1]%Z)%nat ->
     exists r : SortingStep Z,
       filter (is_resolved_of i) (generateSteps [4; 3; 2; 1]) = [r] /\
       indices r = [0] /\
       length (filter (is_shift_of i) (generateSteps [4; 3; 2; 1])) = i) /\
  (2 * length (filter (fun s => type s = Shift) (generateSteps [4; 3; 2; 1]%Z)) =
   length [4; 3; 2; 1]%Z * (length [4; 3; 2; 1]%Z - 1))%nat.
Proof.
  apply (decreasing_input_is_worst_case [4; 3; 2; 1]).
  repeat constructor; lia.
Defined.

(** X9.  The array the trace ends with depends on the values of the input
    only, not on their order: two inputs that are permutations of one
    another end with the same array. *)
Theorem final_array_of_permuted_input (l l' : list Z) :
  l ≡ₚ l' ->
  array <$> last (generateSteps l) = array <$> last (generateSteps l').
Proof.
  intros Hperm. rewrite !generateSteps_last. simpl. f_equal.
  destruct (final_array_sorted (fun x => x) l) as (Hs & Hp & _).
  destruct (final_array_sorted (fun x => x) l') as (Hs' & Hp' & _).
  apply (StronglySorted_unique Z.le); [exact Hs|exact Hs'|].
  by rewrite Hp, Hp'.
Qed.

Lemma final_array_of_permuted_input_witness :
  array <$> last (generateSteps [2; 1; 3]) = array <$> last (generateSteps [1; 2; 3]).
Proof.
  apply (final_array_of_permuted_input [2; 1; 3] [1; 2; 3]).
  apply perm_swap.
Defined.

(** * The page's state *)

Lemma loaded_reset (newArray : list Z) (st : Studio) : loaded (reset newArray st).
Proof.
  split; [done|]. simpl. pose proof (generateSteps_length_pos newArray). lia.
Qed.

Lemma loaded_act (a : Action) (st : Studio) : loaded st -> loaded (act a st).
Proof.
  intros [Hsteps Hcur]. destruct a as [newArray| | | |v|].
  - apply loaded_reset.
  - split; [done|]. simpl. unfold stepForward. lia.
  - split; [done|]. simpl. unfold stepBackward. lia.
  - by split.
  - by split.
  - split; [done|]. simpl. unfold tick.
    destruct (Z.leb_spec (Z.of_nat (length (steps st)) - 1) (currentStep st)); simpl; lia.
Qed.

Lemma loaded_run (actions : list Action) (st : Studio) :
  loaded st -> loaded (run actions st).
Proof.
  revert st. induction actions as [|a actions IH]; intros st Hst; [done|].
  simpl. by apply IH, loaded_act.
Qed.

Lemma shown_step_loaded (st : Studio) :
  loaded st -> steps st !! Z.to_nat (currentStep st) = Some (shown_step st).
Proof.
  intros [_ Hcur]. unfold shown_step.
  destruct (Z.ltb_spec (currentStep st) 0); [lia|].
  destruct (lookup_lt_is_Some_2 (steps st) (Z.to_nat (currentStep st))) as [s Hs]; [lia|].
  by rewrite Hs.
Qed.

(** X10.  After a reset, whatever the buttons and the timer do next (steps
    forward and backward, play and pause, speed changes, ticks, further
    resets), the state holds the trace of its array, the cursor is the index
    of one of its steps, and the page shows that step, never the
    placeholder. *)
Theorem cursor_stays_on_the_trace
    (newArray : list Z) (st : Studio) (actions : list Action) :
  let st' := run actions (reset newArray st) in
  steps st' = generateSteps (inputArray st') /\
  0 <= currentStep st' < Z.of_nat (length (steps st')) /\
  steps st' !! Z.to_nat (currentStep st') = Some (shown_step st') /\
  shown_step st' <> placeholder.
Proof.
  intros st'.
  assert (Hst' : loaded st') by apply loaded_run, loaded_reset.
  pose proof (shown_step_loaded st' Hst') as Hshown.
  destruct Hst' as [Hsteps Hcur]. split_and!; [done|lia|lia|done|].
  intros Hp. apply list_elem_of_lookup_2 in Hshown.
  rewrite Hsteps, Hp in Hshown.
  assert (Hall : Forall (fun s => is_Some (codeLine s)) (generateSteps (inputArray st'))).
  { apply Forall_forall. intros s Hs.
    apply trace_shape in Hs as [->|[->|(i & _ & Hround)]];
      [| |destruct Hround]; by eexists. }
  rewrite Forall_forall in Hall. by destruct (Hall _ Hshown).
Qed.

(** X11.  Before the first reset the list of steps is empty, and as long as
    no reset happens the page shows the placeholder, wherever the buttons
    and the timer take the cursor. *)
Theorem placeholder_until_reset (actions : list Action) :
  Forall (fun a => forall newArray, a <> Reset newArray) actions ->
  steps (run actions initial_studio) = [] /\
  shown_step (run actions initial_studio) = placeholder.
Proof.
  intros Hno.
  assert (Hsteps : forall st, steps st = [] -> steps (run actions st) = []).
  { induction Hno as [|a actions Ha _ IH]; intros st Hst; [done|].
    simpl. apply IH. destruct a; try done. by destruct (Ha newArray). }
  specialize (Hsteps initial_studio eq_refl). split; [done|].
  unfold shown_step. rewrite Hsteps. by destruct (_ <? 0).
Qed.

Lemma placeholder_until_reset_witness :
  steps (run [Forward; TogglePlay; Tick; Backward] initial_studio) = [] /\
  shown_step (run [Forward; TogglePlay; Tick; Backward] initial_studio) = placeholder.
Proof.
  apply (placeholder_until_reset [Forward; TogglePlay; Tick; Backward]).
  repeat constructor; discriminate.
Defined.

Lemma run_ticks (st : Studio) (k : nat) :
  loaded st -> isPlaying st = true -> currentStep st = 0 ->
  let last := Z.of_nat (length (steps st)) - 1 in
  let st' := run (replicate k Tick) st in
  steps st' = steps st /\
  currentStep st' = Z.min (Z.of_nat k) last /\
  isPlaying st' = (Z.of_nat k <=? last).
Proof.
  intros [_ Hcur] Hplay H0 last.
  induction k as [|k IH].
  - simpl. rewrite H0, Hplay. split_and!; [done|lia|].
    symmetry. apply Z.leb_le. lia.
  - replace (S k) with (k + 1)%nat by lia. rewrite replicate_add. cbn zeta.
    unfold run in *. rewrite fold_left_app. cbn zeta in IH.
    destruct IH as (Hsteps & Hc & Hp). simpl. unfold tick.
    rewrite Hsteps, Hc, Hp. fold last.
    destruct (Z.leb_spec last (Z.min (Z.of_nat k) last)); simpl;
      (split_and!; [done|lia|]).
    + symmetry. apply Z.leb_gt. lia.
    + destruct (Z.leb_spec (Z.of_nat k) last); destruct (Z.leb_spec (Z.of_nat (k + 1)) last);
        try done; lia.
Qed.

(** X12.  Playback from the first step: after [k] ticks the cursor is at
    [min k last], with [last] the last index; the condition that keeps the
    timer running holds for [k < last] only, so the timer stops when the
    cursor reaches [last]; and [isPlaying] is cleared only by a tick that
    comes after that. *)
Theorem autoplay_runs_to_the_last_step (newArray : list Z) (st : Studio) (k : nat) :
  let st0 := act TogglePlay (reset newArray st) in
  let last := Z.of_nat (length (generateSteps newArray)) - 1 in
  let st' := run (replicate k Tick) st0 in
  currentStep st' = Z.min (Z.of_nat k) last /\
  timer_armed st' = (Z.of_nat k <? last) /\
  isPlaying st' = (Z.of_nat k <=? last).
Proof.
  intros st0 last st'.
  destruct (run_ticks st0 k) as (Hsteps & Hcur & Hplay);
    [apply loaded_act, loaded_reset|done|done|].
  fold st' in Hsteps, Hcur, Hplay. change (steps st0) with (generateSteps newArray) in *.
  fold last in Hcur, Hplay. split_and!; [done| |done].
  unfold timer_armed. rewrite Hsteps, Hcur, Hplay. fold last.
  destruct (Z.leb_spec (Z.of_nat k) last); destruct (Z.ltb_spec (Z.of_nat k) last);
    destruct (Z.ltb_spec (Z.min (Z.of_nat k) last) last); simpl; try done; lia.
Qed.

(** X13.  In every state that follows a reset, a tick of the timer and the
    button that steps forward move the cursor to the same step. *)
Theorem tick_and_forward_agree
    (newArray : list Z) (st : Studio) (actions : list Action) :
  let st' := run actions (reset newArray st) in
  currentStep (act Tick st') = currentStep (act Forward st').
Proof.
  intros st'.
  assert (Hst' : loaded st') by apply loaded_run, loaded_reset.
  destruct Hst' as [_ Hcur]. simpl. unfold tick, stepForward.
  destruct (Z.leb_spec (Z.of_nat (length (steps st')) - 1) (currentStep st')); simpl; lia.
Qed.

(** ** The length of the trace *)

Section TraceLength.
Context {A : Type} `{Inhabited A} (key : A -> Z).
Implicit Types (l arr : list A) (i : nat).

(** Rounds [lo], [lo + 1], ... of at least four steps and of at most their
    index plus [c] steps. *)
Lemma concat_length_bounds {T : Type} (f : nat -> list T) (lo count : nat) (c : Z) :
  (forall i, (lo <= i < lo + count)%nat ->
             4 <= Z.of_nat (length (f i)) <= Z.of_nat i + c) ->
  4 * Z.of_nat count <= Z.of_nat (length (concat (f <$> seq lo count))) /\
  2 * Z.of_nat (length (concat (f <$> seq lo count))) <=
  Z.of_nat count * (2 * Z.of_nat lo + Z.of_nat count - 1) + 2 * c * Z.of_nat count.
Proof.
  revert lo. induction count as [|n IH]; intros lo Hf; [simpl; lia|].
  rewrite <- cons_seq, fmap_cons. simpl concat. rewrite length_app.
  destruct (IH (S lo)) as [IH1 IH2]; [intros i Hi; apply Hf; lia|].
  assert (4 <= Z.of_nat (length (f lo)) <= Z.of_nat lo + c) by (apply Hf; lia).
  rewrite Nat2Z.inj_add, !Nat2Z.inj_succ in *.
  set (a := Z.of_nat (length (f lo))) in *.
  set (b := Z.of_nat (length (concat (f <$> seq (S lo) n)))) in *.
  set (x := Z.of_nat lo) in *. set (y := Z.of_nat n) in *.
  split; [lia|].
  replace (Z.succ y * (2 * x + Z.succ y - 1) + 2 * c * Z.succ y)
    with (y * (2 * Z.succ x + y - 1) + 2 * c * y + 2 * x + 2 * c) by ring.
  lia.
Qed.

(** A round has three steps besides its probes and its shift steps. *)
Lemma iteration_steps_length i arr :
  length (iteration key i arr).1 =
  (3 + length (bsearch key arr (arr !!! i) i 0 (Z.of_nat i - 1)).1 +
   (i - resolved_pos key arr i))%nat.
Proof.
  rewrite iteration_steps. unfold round_block.
  rewrite length_app. simpl. rewrite length_app. simpl.
  rewrite shift_loop_steps, length_fmap, length_seq. lia.
Qed.

Lemma bsearch_probe_log arr i :
  (1 <= i)%nat ->
  1 <= Z.of_nat (length (bsearch key arr (arr !!! i) i 0 (Z.of_nat i - 1)).1) <=
  Z.log2 (Z.of_nat i) + 1.
Proof.
  intros Hi.
  pose proof (bsearch_probe_count key arr (arr !!! i) i 0 (Z.of_nat i - 1)) as Hp.
  pose proof (bsearch_probe_first key arr (arr !!! i) i 0 (Z.of_nat i - 1)) as Hf.
  set (n := length (bsearch key arr (arr !!! i) i 0 (Z.of_nat i - 1)).1) in *.
  assert (1 <= n)%nat by (apply Hf; lia).
  assert (Hpow : 2 ^ Z.of_nat n <= 2 * Z.of_nat i) by lia.
  split; [lia|].
  assert (Z.of_nat n - 1 <= Z.log2 (Z.of_nat i)); [|lia].
  apply Z.log2_le_pow2; [lia|].
  replace (Z.of_nat n) with (Z.succ (Z.of_nat n - 1)) in Hpow by lia.
  rewrite Z.pow_succ_r in Hpow by lia. lia.
Qed.

Lemma trace_length l :
  let rounds := Z.of_nat (length l - 1) in
  let len := Z.of_nat (length (generateStepsBy key l)) in
  4 * rounds + 2 <= len /\
  2 * len <= 4 + rounds * (rounds + 9 + 2 * Z.log2 rounds).
Proof.
  intros rounds len. unfold len, generateStepsBy. cbn zeta.
  rewrite for_loop_rounds.
  set (body := concat ((fun i => (iteration key i (array_before key l i)).1) <$>
                       seq 1 (length l - 1))).
  rewrite length_cons, length_app. change (length [_]) with 1%nat.
  destruct (concat_length_bounds
    (fun i => (iteration key i (array_before key l i)).1) 1 (length l - 1)
    (4 + Z.log2 rounds)) as [Hlo Hhi].
  { intros i Hi. rewrite iteration_steps_length.
    pose proof (bsearch_probe_log (array_before key l i) i) as Hp.
    pose proof (resolved_pos_le key (array_before key l i) i).
    assert (Z.log2 (Z.of_nat i) <= Z.log2 rounds)
      by (apply Z.log2_le_mono; unfold rounds; lia).
    lia. }
  fold rounds body in Hlo, Hhi. change (Z.of_nat 1) with 1 in Hhi.
  replace (rounds * (rounds + 9 + 2 * Z.log2 rounds))
    with (rounds * (2 * 1 + rounds - 1) + 2 * (4 + Z.log2 rounds) * rounds) by ring.
  split; lia.
Qed.

End TraceLength.

(** X14.  An input of length [n] has [n - 1] rounds, each of at least four
    steps, so the trace has at least [4 * (n - 1) + 2] steps; and it has at
    most [2 + (n - 1) * (n + 8 + 2 * log2 (n - 1)) / 2] steps. *)
Theorem trace_length_bounds (l : list Z) :
  let rounds := Z.of_nat (length l - 1) in
  let len := Z.of_nat (length (generateSteps l)) in
  4 * rounds + 2 <= len /\
  2 * len <= 4 + rounds * (rounds + 9 + 2 * Z.log2 rounds).
Proof. apply (trace_length (fun x => x)). Qed.

(** X15.  A reset with an array of [ARRAY_SIZE] values loads a trace of at
    least 46 and at most 145 steps, puts the cursor on its first step, the
    [init] step that shows the new array, stops playback and keeps the
    speed. *)
Theorem reset_loads_a_trace (newArray : list Z) (st : Studio) :
  length newArray = ARRAY_SIZE ->
  let st' := reset newArray st in
  (46 <= length (steps st') <= 145)%nat /\
  shown_step st' = init_step newArray /\
  timer_armed st' = false /\
  speed st' = speed st.
Proof.
  intros Hlen st'.
  pose proof (trace_length (fun x => x) newArray) as Hb. cbn zeta in Hb.
  rewrite Hlen in Hb. change (Z.of_nat (ARRAY_SIZE - 1)) with 11 in Hb.
  change (Z.log2 11) with 3 in Hb.
  change (generateStepsBy (fun x => x) newArray) with (generateSteps newArray) in Hb.
  change (steps st') with (generateSteps newArray).
  split_and!; [lia|lia|done..].
Qed.

Lemma reset_loads_a_trace_witness :
  let st' := reset [12; 11; 10; 9; 8; 7; 6; 5; 4; 3; 2; 1] initial_studio in
  (46 <= length (steps st') <= 145)%nat /\
  shown_step st' = init_step [12; 11; 10; 9; 8; 7; 6; 5; 4; 3; 2; 1] /\
  timer_armed st' = false /\
  speed st' = speed initial_studio.
Proof.
  apply (reset_loads_a_trace [12; 11; 10; 9; 8; 7; 6; 5; 4; 3; 2; 1] initial_studio).
  reflexivity.
Defined.

(** * The bars of a step *)

(** X16.  The bars of a probe step of the trace: the target bar is lifted
    and has the target colour; of the others, which are not lifted, the bar
    at [mid] has the midpoint colour, the bars at [low] and [high] the colour
    of the bounds, the rest of the range the colour of the range, and the
    bars outside of the range are idle. *)
Theorem bars_of_a_probe_step
    (l : list Z) (s : SortingStep Z) (lo hi : Z) (idx : nat) :
  s ∈ generateSteps l ->
  searchRange s = Some (lo, hi) ->
  let x := Z.of_nat idx in
  bar s idx =
  if decide (targetIdx s = Some x) then (class_target, -80)
  else if decide (x = (lo + hi) / 2) then (class_mid, 0)
  else if decide (x = lo \/ x = hi) then (class_bound, 0)
  else if decide (lo <= x <= hi) then (class_in_range, 0)
  else (class_idle, 0).
Proof.
  intros Hs Hr x.
  destruct (trace_probe l s lo hi Hs Hr) as (i & arr & -> & _ & H0 & Hle & Hhi).
  pose proof (mid_bounds lo hi Hle) as Hmid.
  unfold bar. fold x. simpl.
  destruct (Z.eqb_spec (Z.of_nat i) x) as [Hi|Hi].
  - rewrite decide_True by congruence. done.
  - rewrite decide_False by congruence.
    destruct (Z.eqb_spec x lo), (Z.eqb_spec x ((lo + hi) / 2)), (Z.eqb_spec x hi),
      (Z.eqb_spec ((lo + hi) / 2) x), (Z.leb_spec lo x), (Z.leb_spec x hi);
      simpl; repeat case_decide; try reflexivity; try lia.
Qed.

Lemma bars_of_a_probe_step_witness :
  bar (probe_step [3; 5; 8; 1] 3 0 2) 1 = (class_mid, 0).
Proof.
  apply (bars_of_a_probe_step [5; 3; 8; 1] (probe_step [3; 5; 8; 1] 3 0 2) 0 2 1).
  - vm_compute. do 12 right. left.
  - reflexivity.
Defined.

(** X17.  The bars of a step of the trace that has no search range.  In a
    [complete] step every bar has the colour of completion; in an [insert]
    step the bar at the inserted position has the colour of insertion and
    the others are idle; in a [shift] step the two bars of [indices] have
    the colour of the shift and the target bar is lifted; in a search step
    (the one that opens the search and the one that records the resolved
    position) only the target bar is coloured and lifted, the resolved
    position has no colour of its own. *)
Theorem bars_outside_of_a_probe
    (l : list Z) (s : SortingStep Z) (idx : nat) :
  s ∈ generateSteps l ->
  searchRange s = None ->
  let x := Z.of_nat idx in
  bar s idx =
  match type s with
  | Complete => (class_complete, 0)
  | Init => (class_idle, 0)
  | Insert =>
      if decide (indices s !! 0%nat = Some x) then (class_insert, 0) else (class_idle, 0)
  | Shift =>
      (if decide (x ∈ indices s) then class_shift
       else if decide (targetIdx s = Some x) then class_target else class_idle,
       if decide (targetIdx s = Some x) then -80 else 0)
  | Search =>
      if decide (targetIdx s = Some x) then (class_target, -80) else (class_idle, 0)
  end.
Proof.
  intros Hs Hr x.
  apply trace_shape in Hs as [->|[->|(i & _ & Hround)]]; [done|done|].
  destruct Hround as [arr|arr lo hi|arr pos|arr j|arr pos]; try done;
    unfold bar; fold x; simpl.
  - destruct (Z.eqb_spec (Z.of_nat i) x); case_decide; congruence.
  - destruct (Z.eqb_spec (Z.of_nat i) x); case_decide; congruence.
  - destruct (decide (x ∈ [Z.of_nat j; Z.of_nat j - 1])) as [Hin|Hin];
      rewrite !elem_of_cons, elem_of_nil in Hin;
      destruct (decide (Some (Z.of_nat i) = Some x)) as [Ht|Ht];
      destruct (Z.eqb_spec (Z.of_nat i) x), (Z.eqb_spec x (Z.of_nat j)),
        (Z.eqb_spec x (Z.of_nat j - 1)); simpl;
      try reflexivity; exfalso; intuition (congruence || lia).
  - destruct (Z.eqb_spec (Z.of_nat pos) x); case_decide; congruence.
Qed.

Lemma bars_outside_of_a_probe_witness :
  bar (shift_step [3; 5; 8; 1] 3 3) 2 = (class_shift, 0).
Proof.
  apply (bars_outside_of_a_probe [5; 3; 8; 1] (shift_step [3; 5; 8; 1] 3 3) 2).
  - vm_compute. do 15 right. left.
  - reflexivity.
Defined.

(** * What a round does *)

(** X18.  The search of round [i] is right: the prefix [arr[0..i-1]] it
    searches is sorted, every value before the resolved position is below
    [arr[i]], and every value from the resolved position to [i - 1] is at
    least [arr[i]]. *)
Theorem resolved_position_is_lower_bound (l : list Z) (i : nat) :
  (1 <= i < length l)%nat ->
  exists (arr : list Z) (pos : nat),
    filter (is_resolved_of i) (generateSteps l) = [resolved_step arr i pos] /\
    StronglySorted Z.le (take i arr) /\
    (forall k : nat, (k < pos)%nat -> arr !!! k < arr !!! i) /\
    (forall k : nat, (pos <= k < i)%nat -> arr !!! i <= arr !!! k).
Proof.
  intros Hi. unfold generateSteps.
  set (arr := array_before (fun x => x) l i).
  exists arr, (resolved_pos (fun x => x) arr i).
  destruct (array_before_inv (fun x => x) l i) as [_ _ Hsorted _ _]; [lia|].
  fold arr in Hsorted.
  assert (Hidx : forall j k : nat, (j <= k < i)%nat -> arr !!! j <= arr !!! k).
  { intros j k Hjk.
    rewrite <- (lookup_total_take_lt arr i j), <- (lookup_total_take_lt arr i k) by lia.
    apply (StronglySorted_lookup_total (fun x => x)); [done|].
    rewrite length_take.
    destruct (array_before_inv (fun x => x) l i) as [Hlen _ _ _ _]; [lia|].
    fold arr in Hlen. lia. }
  pose proof (bsearch_bounds (fun x => x) arr (arr !!! i) i 0 (Z.of_nat i - 1)) as Hb.
  destruct (bsearch_lower_bound (fun x => x) arr (arr !!! i) i 0 (Z.of_nat i - 1))
    as [Hlt Hge]; [lia|lia|lia|done|intros; lia|intros; lia|].
  split_and!.
  - by apply filter_resolved_trace.
  - exact Hsorted.
  - intros k Hk. apply Hlt. unfold resolved_pos in Hk. lia.
  - intros k Hk. apply Hge. unfold resolved_pos in Hk. lia.
Qed.

Lemma resolved_position_is_lower_bound_witness :
  exists (arr : list Z) (pos : nat),
    filter (is_resolved_of 3) (generateSteps [5; 3; 8; 1]) = [resolved_step arr 3 pos] /\
    StronglySorted Z.le (take 3 arr) /\
    (forall k : nat, (k < pos)%nat -> arr !!! k < arr !!! 3%nat) /\
    (forall k : nat, (pos <= k < 3)%nat -> arr !!! 3%nat <= arr !!! k).
Proof.
  apply (resolved_position_is_lower_bound [5; 3; 8; 1] 3). simpl. lia.
Defined.

(** X19.  Round [i] takes the value at [i] out and puts it back at the
    resolved position [pos]: between the step that opens the round and its
    insert step, the values from [pos] to [i - 1] have moved one place to
    the right, and the values before [pos] and after [i] are where they
    were. *)
Theorem round_moves_one_value (l : list Z) (i : nat) :
  (1 <= i < length l)%nat ->
  exists (pre mid post : list (SortingStep Z)) (l1 l2 l3 : list Z) (v : Z) (pos : nat),
    generateSteps l =
      pre ++ start_step (l1 ++ l2 ++ v :: l3) i :: mid ++
      insert_step (l1 ++ v :: l2 ++ l3) pos :: post /\
    Forall (for_target i) mid /\
    length l1 = pos /\
    (length l1 + length l2)%nat = i.
Proof.
  intros Hi. unfold generateSteps. rewrite (trace_round (fun x => x) l i Hi).
  rewrite array_before_S by lia.
  set (arr := array_before (fun x => x) l i).
  destruct (array_before_inv (fun x => x) l i) as [Hlen _ Hsorted _ _]; [lia|].
  fold arr in Hlen, Hsorted.
  destruct (iteration_array (fun x => x) arr i)
    as (l1 & l2 & l3 & Harr & Hl1 & Hl12 & Hit & _ & _); [lia|done|].
  rewrite Hit. unfold round_block. rewrite length_app in Hl12.
  exists (init_step l :: (for_loop (fun x => x) (i - 1) 1 l).1),
    ((bsearch (fun x => x) arr (arr !!! i) i 0 (Z.of_nat i - 1)).1 ++
     resolved_step arr i (resolved_pos (fun x => x) arr i) ::
     (shift_loop (resolved_pos (fun x => x) arr i) i i arr).1),
    ((for_loop (fun x => x) (length l - 1 - i) (S i) (l1 ++ arr !!! i :: l2 ++ l3)).1 ++
     [complete_step (final_array (fun x => x) l) (length l)]),
    l1, l2, l3, (arr !!! i), (resolved_pos (fun x => x) arr i).
  split; [|split; [|by split]].
  - rewrite <- Harr. by rewrite <- app_comm_cons.
  - apply Forall_app. split; [|constructor; [done|]].
    + eapply Forall_impl; [apply (bsearch_probes (fun x => x))|]. simpl.
      by intros s (lo & hi & -> & _).
    + rewrite shift_loop_steps. apply Forall_fmap, Forall_forall. by intros k _.
Qed.

Lemma round_moves_one_value_witness :
  exists (pre mid post : list (SortingStep Z)) (l1 l2 l3 : list Z) (v : Z) (pos : nat),
    generateSteps [5; 3; 8; 1] =
      pre ++ start_step (l1 ++ l2 ++ v :: l3) 3 :: mid ++
      insert_step (l1 ++ v :: l2 ++ l3) pos :: post /\
    Forall (for_target 3) mid /\
    length l1 = pos /\
    (length l1 + length l2)%nat = 3%nat.
Proof.
  apply (round_moves_one_value [5; 3; 8; 1] 3). simpl. lia.
Defined.
